(** * The RTP packet pipeline of [main.go]: worker pool, handoff queue and
      batching writer

    The development embeds the three goroutines of [streamHandler]
    ([processRTPPackets] with the workers it spawns, [writeToFFmpeg], and the
    cleanup goroutine of [main]) as one interleaving machine over the variables
    they share.  Every statement of the source that touches shared state is one
    step of the machine; a schedule is a list of labels saying which goroutine
    moves next. *)

From Stdlib Require Import List ZArith Lia Bool PeanoNat.
From Stdlib.Strings Require Import Byte.
Import ListNotations.
Local Open Scope Z_scope.

(** ** Data *)

(** A payload is a Go [[]byte]. *)
Definition Payload : Type := list byte.

(** [time.Time] and [time.Duration], both counted in nanoseconds. *)
Definition Time : Type := Z.
Definition Millisecond : Z := 1000000.
Definition Second : Z := 1000 * Millisecond.

(** Constants of [writeToFFmpeg]. *)
Definition batchSize : nat := 5.
Definition flushInterval : Z := 5 * Millisecond.

(** [packetCounter] is a [uint64]. *)
Definition uint64 (z : Z) : Z := z mod 2 ^ 64.

(** ** Go channels

    A channel is its buffer, its capacity and its closed flag.  The three
    operations are the non-blocking forms that [select] uses: a send proceeds,
    would block (the [default] arm runs, or the goroutine waits), or panics
    on a closed channel; a receive yields the oldest element, reports a
    closed and drained channel, or would block. *)
Module Channel.

Record Chan (A : Type) : Type := mkChan {
  buf : list A;
  cap : nat;
  closed : bool
}.
Arguments mkChan {A} _ _ _.
Arguments buf {A} _.
Arguments cap {A} _.
Arguments closed {A} _.

Definition make {A : Type} (n : nat) : Chan A := mkChan [] n false.

Inductive SendResult (A : Type) : Type :=
| Sent (c : Chan A)
| SendWouldBlock
| SendPanic.
Arguments Sent {A} _.
Arguments SendWouldBlock {A}.
Arguments SendPanic {A}.

Inductive RecvResult (A : Type) : Type :=
| Received (x : A) (c : Chan A)
| RecvClosed
| RecvWouldBlock.
Arguments Received {A} _ _.
Arguments RecvClosed {A}.
Arguments RecvWouldBlock {A}.

Definition send {A : Type} (c : Chan A) (x : A) : SendResult A :=
  if closed c then SendPanic
  else if (length (buf c) <? cap c)%nat
       then Sent (mkChan (buf c ++ [x]) (cap c) (closed c))
       else SendWouldBlock.

Definition recv {A : Type} (c : Chan A) : RecvResult A :=
  match buf c with
  | x :: rest => Received x (mkChan rest (cap c) (closed c))
  | [] => if closed c then RecvClosed else RecvWouldBlock
  end.

(** [close] of a closed channel panics: [None]. *)
Definition close {A : Type} (c : Chan A) : option (Chan A) :=
  if closed c then None else Some (mkChan (buf c) (cap c) true).

Lemma send_Sent {A : Type} (c c' : Chan A) (x : A) :
  send c x = Sent c' ->
  buf c' = buf c ++ [x] /\ cap c' = cap c /\ closed c' = false /\
  closed c = false /\ (length (buf c) < cap c)%nat.
Proof.
  unfold send. destruct (closed c) eqn:Ec; [discriminate|].
  destruct (Nat.ltb_spec (length (buf c)) (cap c)); [|discriminate].
  intros E; inversion E; subst; simpl. auto.
Qed.

Lemma send_WouldBlock {A : Type} (c : Chan A) (x : A) :
  send c x = SendWouldBlock ->
  closed c = false /\ (cap c <= length (buf c))%nat.
Proof.
  unfold send. destruct (closed c) eqn:Ec; [discriminate|].
  destruct (Nat.ltb_spec (length (buf c)) (cap c)); [discriminate|]. auto.
Qed.

Lemma send_Panic {A : Type} (c : Chan A) (x : A) :
  send c x = SendPanic -> closed c = true.
Proof.
  unfold send. destruct (closed c); [reflexivity|].
  destruct (length (buf c) <? cap c)%nat; discriminate.
Qed.

Lemma recv_Received {A : Type} (c c' : Chan A) (x : A) :
  recv c = Received x c' ->
  buf c = x :: buf c' /\ cap c' = cap c /\ closed c' = closed c.
Proof.
  unfold recv. destruct (buf c) as [|y rest].
  - destruct (closed c); discriminate.
  - intros E; inversion E; subst; simpl. auto.
Qed.

Lemma recv_Closed {A : Type} (c : Chan A) :
  recv c = RecvClosed -> buf c = [] /\ closed c = true.
Proof.
  unfold recv. destruct (buf c) as [|y rest]; [|discriminate].
  destruct (closed c); [auto|discriminate].
Qed.

Lemma recv_WouldBlock {A : Type} (c : Chan A) :
  recv c = RecvWouldBlock -> buf c = [] /\ closed c = false.
Proof.
  unfold recv. destruct (buf c) as [|y rest]; [|discriminate].
  destruct (closed c); [discriminate|auto].
Qed.

Lemma close_Some {A : Type} (c c' : Chan A) :
  close c = Some c' ->
  buf c' = buf c /\ cap c' = cap c /\ closed c' = true /\ closed c = false.
Proof.
  unfold close. destruct (closed c) eqn:Ec; [discriminate|].
  intros E; inversion E; subst; simpl. auto.
Qed.

Lemma close_None {A : Type} (c : Chan A) :
  close c = None -> closed c = true.
Proof.
  unfold close. destruct (closed c); [reflexivity|discriminate].
Qed.

End Channel.
Import Channel.

(** ** The sink

    [ffmpegStdin] is an [io.WriteCloser].  [Write] returns the sink after the
    call and whether [err == nil]; the byte count is ignored by the source. *)
Class WriteCloser (W : Type) : Type := {
  Write : W -> Payload -> W * bool;
  Close : W -> W
}.

(** Lines printed on standard output. *)
Inductive Line : Type :=
| ErrorReadingRTP          (* "Error reading RTP:" err *)
| WorkerPoolFull           (* "Worker pool full, dropping packet" *)
| PacketDroppedBufferFull  (* "Packet dropped: buffer full" *)
| ProcessedPerSec (n : Z)  (* "Processed %d packets/sec" *)
| ErrorWritingFFmpeg.      (* "Error writing to FFmpeg:" err *)

Definition isDrop (l : Line) : bool :=
  match l with
  | WorkerPoolFull | PacketDroppedBufferFull => true
  | _ => false
  end.

(** ** Program counters *)

(** The loop of [processRTPPackets]: at the outer [select], inside
    [track.ReadRTP], or returned (the deferred [close] has run). *)
Inductive DispatchPc : Type := AtSelect | InReadRTP | Returned.

(** The goroutine spawned per packet (main.go:60-82), one constructor per
    access to shared state:
    the [select] that offers the copy to [processedChan];
    [packetCounter++], a load followed by a store;
    the test [time.Since(lastMetricTime) >= time.Second];
    the [Printf], the reset and the new time stamp;
    the deferred [<-workers]. *)
Inductive WorkerPc : Type :=
| Offer (payload : Payload)
| IncLoad
| IncStore (tmp : Z)
| CheckSince
| PrintRate
| ResetCounter
| StampTime
| Release.

Definition isOffer (w : WorkerPc) : bool :=
  match w with Offer _ => true | _ => false end.

(** [writeToFFmpeg]: at the [select] of its loop, or returned. *)
Inductive WriterPc : Type := InLoop | WriterReturned.

(** The cleanup goroutine of [main] (main.go:268-272): waiting for the
    connection to close, about to close the pipe, finished. *)
Inductive CleanupPc : Type := Waiting | ClosingStdin | Finished.

Section Pipeline.

Context {W : Type} `{WriteCloser W}.

(** ** State *)

(** [streamHandler], main.go:20-27.  [ffmpegStdin] is nil until
    [startFFmpeg] stores the pipe; [main] starts the goroutines only after
    [startFFmpeg] succeeded, so the handler is built with the pipe in place. *)
Record streamHandler : Type := mkHandler {
  rtpChan : Chan Payload;
  processedChan : Chan Payload;
  done : Chan unit;
  ffmpegStdin : W;
  workerCount : nat;
  metricsEnabled : bool
}.

Definition newStreamHandler (workers : nat) (stdin : W) : streamHandler :=
  {| rtpChan := make 100;
     processedChan := make 100;
     done := make 0;
     ffmpegStdin := stdin;
     workerCount := workers;
     metricsEnabled := true |}.

Definition with_processedChan (c : Chan Payload) (x : streamHandler) :=
  mkHandler (rtpChan x) c (done x) (ffmpegStdin x) (workerCount x)
            (metricsEnabled x).
Definition with_done (c : Chan unit) (x : streamHandler) :=
  mkHandler (rtpChan x) (processedChan x) c (ffmpegStdin x) (workerCount x)
            (metricsEnabled x).
Definition with_ffmpegStdin (w : W) (x : streamHandler) :=
  mkHandler (rtpChan x) (processedChan x) (done x) w (workerCount x)
            (metricsEnabled x).

(** The machine state: the handler, the locals of [processRTPPackets] that
    its workers capture, the locals of [writeToFFmpeg], the clock and
    standard output, and four history fields that only record what happened
    (dispatch attempts, payloads the queue accepted, payloads the writer
    drained, and every [Write] with its outcome). *)
Record State : Type := mkState {
  h : streamHandler;
  packetCounter : Z;
  lastMetricTime : Time;
  workers : Chan unit;
  dispatcher : DispatchPc;
  goroutines : list WorkerPc;
  batch : list Payload;
  tickerC : Chan Time;
  tickerWhen : Time;
  writer : WriterPc;
  cleanup : CleanupPc;
  now : Time;
  stdout : list Line;
  panicked : bool;
  attempts : nat;
  accepted : list Payload;
  drained : list Payload;
  sinkLog : list (Payload * bool)
}.

Definition set_h (v : streamHandler) (s : State) : State :=
  mkState v (packetCounter s) (lastMetricTime s) (workers s) (dispatcher s)
    (goroutines s) (batch s) (tickerC s) (tickerWhen s) (writer s) (cleanup s)
    (now s) (stdout s) (panicked s) (attempts s) (accepted s) (drained s)
    (sinkLog s).

Definition set_packetCounter (v : Z) (s : State) : State :=
  mkState (h s) v (lastMetricTime s) (workers s) (dispatcher s) (goroutines s)
    (batch s) (tickerC s) (tickerWhen s) (writer s) (cleanup s) (now s)
    (stdout s) (panicked s) (attempts s) (accepted s) (drained s) (sinkLog s).

Definition set_lastMetricTime (v : Time) (s : State) : State :=
  mkState (h s) (packetCounter s) v (workers s) (dispatcher s) (goroutines s)
    (batch s) (tickerC s) (tickerWhen s) (writer s) (cleanup s) (now s)
    (stdout s) (panicked s) (attempts s) (accepted s) (drained s) (sinkLog s).

Definition set_workers (v : Chan unit) (s : State) : State :=
  mkState (h s) (packetCounter s) (lastMetricTime s) v (dispatcher s)
    (goroutines s) (batch s) (tickerC s) (tickerWhen s) (writer s) (cleanup s)
    (now s) (stdout s) (panicked s) (attempts s) (accepted s) (drained s)
    (sinkLog s).

Definition set_dispatcher (v : DispatchPc) (s : State) : State :=
  mkState (h s) (packetCounter s) (lastMetricTime s) (workers s) v
    (goroutines s) (batch s) (tickerC s) (tickerWhen s) (writer s) (cleanup s)
    (now s) (stdout s) (panicked s) (attempts s) (accepted s) (drained s)
    (sinkLog s).

Definition set_goroutines (v : list WorkerPc) (s : State) : State :=
  mkState (h s) (packetCounter s) (lastMetricTime s) (workers s)
    (dispatcher s) v (batch s) (tickerC s) (tickerWhen s) (writer s)
    (cleanup s) (now s) (stdout s) (panicked s) (attempts s) (accepted s)
    (drained s) (sinkLog s).

Definition set_batch (v : list Payload) (s : State) : State :=
  mkState (h s) (packetCounter s) (lastMetricTime s) (workers s)
    (dispatcher s) (goroutines s) v (tickerC s) (tickerWhen s) (writer s)
    (cleanup s) (now s) (stdout s) (panicked s) (attempts s) (accepted s)
    (drained s) (sinkLog s).

Definition set_tickerC (v : Chan Time) (s : State) : State :=
  mkState (h s) (packetCounter s) (lastMetricTime s) (workers s)
    (dispatcher s) (goroutines s) (batch s) v (tickerWhen s) (writer s)
    (cleanup s) (now s) (stdout s) (panicked s) (attempts s) (accepted s)
    (drained s) (sinkLog s).

Definition set_tickerWhen (v : Time) (s : State) : State :=
  mkState (h s) (packetCounter s) (lastMetricTime s) (workers s)
    (dispatcher s) (goroutines s) (batch s) (tickerC s) v (writer s)
    (cleanup s) (now s) (stdout s) (panicked s) (attempts s) (accepted s)
    (drained s) (sinkLog s).

Definition set_writer (v : WriterPc) (s : State) : State :=
  mkState (h s) (packetCounter s) (lastMetricTime s) (workers s)
    (dispatcher s) (goroutines s) (batch s) (tickerC s) (tickerWhen s) v
    (cleanup s) (now s) (stdout s) (panicked s) (attempts s) (accepted s)
    (drained s) (sinkLog s).

Definition set_cleanup (v : CleanupPc) (s : State) : State :=
  mkState (h s) (packetCounter s) (lastMetricTime s) (workers s)
    (dispatcher s) (goroutines s) (batch s) (tickerC s) (tickerWhen s)
    (writer s) v (now s) (stdout s) (panicked s) (attempts s) (accepted s)
    (drained s) (sinkLog s).

Definition set_now (v : Time) (s : State) : State :=
  mkState (h s) (packetCounter s) (lastMetricTime s) (workers s)
    (dispatcher s) (goroutines s) (batch s) (tickerC s) (tickerWhen s)
    (writer s) (cleanup s) v (stdout s) (panicked s) (attempts s) (accepted s)
    (drained s) (sinkLog s).

Definition set_stdout (v : list Line) (s : State) : State :=
  mkState (h s) (packetCounter s) (lastMetricTime s) (workers s)
    (dispatcher s) (goroutines s) (batch s) (tickerC s) (tickerWhen s)
    (writer s) (cleanup s) (now s) v (panicked s) (attempts s) (accepted s)
    (drained s) (sinkLog s).

Definition set_panicked (v : bool) (s : State) : State :=
  mkState (h s) (packetCounter s) (lastMetricTime s) (workers s)
    (dispatcher s) (goroutines s) (batch s) (tickerC s) (tickerWhen s)
    (writer s) (cleanup s) (now s) (stdout s) v (attempts s) (accepted s)
    (drained s) (sinkLog s).

Definition set_attempts (v : nat) (s : State) : State :=
  mkState (h s) (packetCounter s) (lastMetricTime s) (workers s)
    (dispatcher s) (goroutines s) (batch s) (tickerC s) (tickerWhen s)
    (writer s) (cleanup s) (now s) (stdout s) (panicked s) v (accepted s)
    (drained s) (sinkLog s).

Definition set_accepted (v : list Payload) (s : State) : State :=
  mkState (h s) (packetCounter s) (lastMetricTime s) (workers s)
    (dispatcher s) (goroutines s) (batch s) (tickerC s) (tickerWhen s)
    (writer s) (cleanup s) (now s) (stdout s) (panicked s) (attempts s) v
    (drained s) (sinkLog s).

Definition set_drained (v : list Payload) (s : State) : State :=
  mkState (h s) (packetCounter s) (lastMetricTime s) (workers s)
    (dispatcher s) (goroutines s) (batch s) (tickerC s) (tickerWhen s)
    (writer s) (cleanup s) (now s) (stdout s) (panicked s) (attempts s)
    (accepted s) v (sinkLog s).

Definition set_sinkLog (v : list (Payload * bool)) (s : State) : State :=
  mkState (h s) (packetCounter s) (lastMetricTime s) (workers s)
    (dispatcher s) (goroutines s) (batch s) (tickerC s) (tickerWhen s)
    (writer s) (cleanup s) (now s) (stdout s) (panicked s) (attempts s)
    (accepted s) (drained s) v.

(** The state when [main] has started both goroutines at time [t0]
    (main.go:255-264): [processRTPPackets] has run up to its loop
    (lines 40-45) and [writeToFFmpeg] up to its loop (lines 93-111). *)
Definition start (workers : nat) (stdin : W) (t0 : Time) : State :=
  let x := newStreamHandler workers stdin in
  {| h := x;
     packetCounter := 0;
     lastMetricTime := t0;
     workers := make (workerCount x);
     dispatcher := AtSelect;
     goroutines := [];
     batch := [];
     tickerC := make 1;
     tickerWhen := t0 + flushInterval;
     writer := InLoop;
     cleanup := Waiting;
     now := t0;
     stdout := [];
     panicked := false;
     attempts := 0%nat;
     accepted := [];
     drained := [];
     sinkLog := [] |}.

Definition println (l : Line) (s : State) : State :=
  set_stdout (stdout s ++ [l]) s.

Definition set_processedChan (c : Chan Payload) (s : State) : State :=
  set_h (with_processedChan c (h s)) s.

(** ** [processRTPPackets], main.go:39-90 *)

(** Leaving the function runs [defer close(h.processedChan)] (line 40). *)
Definition processRTPPackets_return (s : State) : State :=
  match close (processedChan (h s)) with
  | Some c => set_dispatcher Returned (set_processedChan c s)
  | None => set_panicked true (set_dispatcher Returned s)
  end.

(** The outer [select] (lines 48-51): [<-h.done] is ready once [done] is
    closed, otherwise the [default] arm goes on to [track.ReadRTP]. *)
Definition outerSelect (s : State) : State :=
  match recv (done (h s)) with
  | RecvWouldBlock => set_dispatcher InReadRTP s
  | _ => processRTPPackets_return s
  end.

(** [track.ReadRTP] failed (lines 53-56). *)
Definition readError (s : State) : State :=
  processRTPPackets_return (println ErrorReadingRTP s).

(** [track.ReadRTP] returned a packet: the inner [select] (lines 58-87).
    Acquiring a slot is a send on [workers]; on success the goroutine is
    started at its [select] on [processedChan] with the packet's payload
    (its private copy, lines 64-65, is the same list of bytes). *)
Definition dispatch (packet : Payload) (s : State) : State :=
  let s := set_attempts (S (attempts s)) s in
  match send (workers s) tt with
  | Sent c => set_goroutines (goroutines s ++ [Offer packet]) (set_workers c s)
  | SendWouldBlock =>
      if metricsEnabled (h s) then println WorkerPoolFull s else s
  | SendPanic => set_panicked true s
  end.

Definition readPacket (packet : Payload) (s : State) : State :=
  set_dispatcher AtSelect (dispatch packet s).

(** ** The worker goroutine, main.go:60-82 *)

Fixpoint replace {A : Type} (i : nat) (x : A) (l : list A) : list A :=
  match l, i with
  | [], _ => []
  | _ :: rest, O => x :: rest
  | y :: rest, S j => y :: replace j x rest
  end.

Fixpoint remove {A : Type} (i : nat) (l : list A) : list A :=
  match l, i with
  | [], _ => []
  | _ :: rest, O => rest
  | y :: rest, S j => y :: remove j rest
  end.

Definition goto (i : nat) (pc : WorkerPc) (s : State) : State :=
  set_goroutines (replace i pc (goroutines s)) s.

(** The deferred [<-workers] (line 61), after which the goroutine is gone.
    [None]: the receive would block. *)
Definition release (i : nat) (s : State) : option State :=
  match recv (workers s) with
  | Received _ c => Some (set_goroutines (remove i (goroutines s)) (set_workers c s))
  | _ => None
  end.

(** One step of the goroutine at index [i], standing at [pc].  A send on the
    closed [processedChan] panics: the deferred release still runs, then the
    process dies. *)
Definition workerStep (i : nat) (pc : WorkerPc) (s : State) : option State :=
  match pc with
  | Offer payload =>
      match send (processedChan (h s)) payload with
      | Sent c =>
          let s := set_accepted (accepted s ++ [payload]) (set_processedChan c s) in
          Some (goto i (if metricsEnabled (h s) then IncLoad else Release) s)
      | SendWouldBlock =>
          let s := if metricsEnabled (h s) then println PacketDroppedBufferFull s else s in
          Some (goto i Release s)
      | SendPanic =>
          match release i s with
          | Some s' => Some (set_panicked true s')
          | None => Some (set_panicked true s)
          end
      end
  | IncLoad => Some (goto i (IncStore (packetCounter s)) s)
  | IncStore tmp => Some (goto i CheckSince (set_packetCounter (uint64 (tmp + 1)) s))
  | CheckSince =>
      Some (goto i (if Second <=? now s - lastMetricTime s then PrintRate else Release) s)
  | PrintRate => Some (goto i ResetCounter (println (ProcessedPerSec (packetCounter s)) s))
  | ResetCounter => Some (goto i StampTime (set_packetCounter 0 s))
  | StampTime => Some (goto i Release (set_lastMetricTime (now s) s))
  | Release => release i s
  end.

(** ** [writeToFFmpeg], main.go:92-130 *)

(** The [for range batch] loop of [flushBatch] (lines 101-106): the sink and
    the log after the writes, and the number of payloads written before the
    first error, if any. *)
Fixpoint writeEach (w : W) (log : list (Payload * bool)) (ps : list Payload)
  : W * list (Payload * bool) * bool :=
  match ps with
  | [] => (w, log, true)
  | p :: rest =>
      let (w', ok) := Write w p in
      if ok then writeEach w' (log ++ [(p, true)]) rest
      else (w', log ++ [(p, false)], false)
  end.

(** [flushBatch] (lines 96-108): nothing for an empty batch; otherwise the
    writes, and [batch = batch[:0]] only when the loop ran to its end.  A
    flush is one step of the machine: the sink is the writer's alone, apart
    from the [Close] of the cleanup goroutine, which falls before or after
    a flush. *)
Definition flushBatch (s : State) : State :=
  match batch s with
  | [] => s
  | _ :: _ =>
      match writeEach (ffmpegStdin (h s)) (sinkLog s) (batch s) with
      | (w, log, ok) =>
          let s := set_sinkLog log (set_h (with_ffmpegStdin w (h s)) s) in
          if ok then set_batch [] s else println ErrorWritingFFmpeg s
      end
  end.

(** A payload arrived (lines 121-124). *)
Definition onPayload (payload : Payload) (s : State) : State :=
  let s := set_batch (batch s ++ [payload]) s in
  if (batchSize <=? length (batch s))%nat then flushBatch s else s.

(** The channel is closed and drained (lines 116-119); the deferred
    [ticker.Stop] runs on the way out. *)
Definition onClosed (s : State) : State :=
  set_writer WriterReturned (flushBatch s).

(** The [select] took [processedChan] (line 115). *)
Definition writerChan (s : State) : option State :=
  match recv (processedChan (h s)) with
  | Received payload c =>
      Some (onPayload payload
              (set_drained (drained s ++ [payload]) (set_processedChan c s)))
  | RecvClosed => Some (onClosed s)
  | RecvWouldBlock => None
  end.

(** The [select] took [ticker.C] (lines 126-127). *)
Definition writerTick (s : State) : option State :=
  match recv (tickerC s) with
  | Received _ c => Some (flushBatch (set_tickerC c s))
  | _ => None
  end.

(** ** The clock and the ticker *)

(** The runtime's timer: when the ticker's deadline has passed it offers the
    time on [ticker.C] without blocking (a tick is lost when the one-slot
    buffer is full) and moves the deadline past the present by whole
    periods.  A stopped ticker does nothing. *)
Definition fireTicker (s : State) : State :=
  match writer s with
  | WriterReturned => s
  | InLoop =>
      if tickerWhen s <=? now s then
        let c := match send (tickerC s) (now s) with
                 | Sent c => c
                 | _ => tickerC s
                 end in
        let delta := now s - tickerWhen s in
        set_tickerWhen (tickerWhen s + flushInterval * (1 + delta / flushInterval))
                       (set_tickerC c s)
      else s
  end.

Definition advance (d : Z) (s : State) : option State :=
  if d <? 0 then None else Some (fireTicker (set_now (now s + d) s)).

(** ** The cleanup goroutine of [main], lines 268-272 *)

Definition closeDone (s : State) : State :=
  match close (done (h s)) with
  | Some c => set_cleanup ClosingStdin (set_h (with_done c (h s)) s)
  | None => set_panicked true s
  end.

Definition closeStdin (s : State) : State :=
  set_cleanup Finished (set_h (with_ffmpegStdin (Close (ffmpegStdin (h s))) (h s)) s).

(** ** The machine *)

Inductive Label : Type :=
| OuterSelect                  (* processRTPPackets reaches its select *)
| ReadPacket (packet : Payload) (* track.ReadRTP returns a packet *)
| ReadError                    (* track.ReadRTP returns an error *)
| Worker (i : nat)             (* the i-th live worker takes its next step *)
| WriterChan                   (* the writer's select takes processedChan *)
| WriterTick                   (* the writer's select takes ticker.C *)
| Stop                         (* the connection closed: close(handler.done) *)
| CloseStdin                   (* handler.ffmpegStdin.Close() *)
| Advance (d : Z).             (* d nanoseconds pass *)

(** [step l s] is [None] when the goroutine named by [l] is not at that
    point of its code or cannot move (it is blocked); nothing moves once the
    process has panicked. *)
Definition step (l : Label) (s : State) : option State :=
  if panicked s then None else
  match l with
  | OuterSelect =>
      match dispatcher s with AtSelect => Some (outerSelect s) | _ => None end
  | ReadPacket packet =>
      match dispatcher s with InReadRTP => Some (readPacket packet s) | _ => None end
  | ReadError =>
      match dispatcher s with InReadRTP => Some (readError s) | _ => None end
  | Worker i =>
      match nth_error (goroutines s) i with
      | Some pc => workerStep i pc s
      | None => None
      end
  | WriterChan =>
      match writer s with InLoop => writerChan s | WriterReturned => None end
  | WriterTick =>
      match writer s with InLoop => writerTick s | WriterReturned => None end
  | Stop =>
      match cleanup s with Waiting => Some (closeDone s) | _ => None end
  | CloseStdin =>
      match cleanup s with ClosingStdin => Some (closeStdin s) | _ => None end
  | Advance d => advance d s
  end.

Fixpoint exec (schedule : list Label) (s : State) : option State :=
  match schedule with
  | [] => Some s
  | l :: rest =>
      match step l s with
      | Some s' => exec rest s'
      | None => None
      end
  end.

(** ** Observations *)

(** What the sink has received: the payloads of the successful writes. *)
Definition delivered (log : list (Payload * bool)) : list Payload :=
  map fst (filter snd log).

(** No write has failed. *)
Definition allOk (log : list (Payload * bool)) : bool := forallb snd log.

Definition drops (s : State) : nat := length (filter isDrop (stdout s)).

(** Workers that have not yet made their offer. *)
Definition pendingOffers (s : State) : nat :=
  length (filter isOffer (goroutines s)).

(** Transforms in flight: worker goroutines that still hold their slot. *)
Definition inFlight (s : State) : nat := length (goroutines s).

(** The counts printed so far by the reports. *)
Definition reported (s : State) : Z :=
  fold_right (fun l acc => match l with
                           | ProcessedPerSec k => k + acc
                           | _ => acc
                           end) 0 (stdout s).

(** "Processed plus dropped equals the dispatch attempts", for a reading
    [processed] of the processed count and the printed drop lines as the
    dropped count. *)
Definition dropAccounting (processed : State -> Z) (s : State) : Prop :=
  processed s + Z.of_nat (drops s) = Z.of_nat (attempts s).

(** ** Lists of goroutines *)

Lemma replace_length {A : Type} (i : nat) (x : A) (l : list A) :
  length (replace i x l) = length l.
Proof.
  revert i; induction l as [|y l IH]; intros [|i]; simpl; auto.
Qed.

Lemma remove_length {A : Type} (i : nat) (l : list A) :
  (i < length l)%nat -> S (length (remove i l)) = length l.
Proof.
  revert i; induction l as [|y l IH]; intros [|i]; simpl; intros Hi;
    try lia.
  rewrite IH; lia.
Qed.

Lemma nth_error_in_range {A : Type} (l : list A) (i : nat) (x : A) :
  nth_error l i = Some x -> (i < length l)%nat.
Proof.
  intros E. apply nth_error_Some. congruence.
Qed.

(** ** The slot pool *)

(** Every live worker holds exactly one token of [workers], whose capacity
    is the handler's [workerCount]. *)
Record SlotsInv (s : State) : Prop := {
  slots_cap : cap (workers s) = workerCount (h s);
  slots_open : closed (workers s) = false;
  slots_held : length (buf (workers s)) = length (goroutines s);
  slots_bound : (length (goroutines s) <= workerCount (h s))%nat
}.

Lemma SlotsInv_start (n : nat) (stdin : W) (t0 : Time) :
  SlotsInv (start n stdin t0).
Proof.
  split; simpl; auto; lia.
Qed.

Lemma release_slots (i : nat) (s s' : State) :
  SlotsInv s -> (i < length (goroutines s))%nat ->
  release i s = Some s' -> SlotsInv s'.
Proof.
  intros [Hc Ho Hh Hb] Hi. unfold release, recv.
  destruct (buf (workers s)) as [|t rest] eqn:Eb.
  - destruct (closed (workers s)); discriminate.
  - intros E; inversion E; subst s'; clear E.
    pose proof (remove_length i (goroutines s) Hi) as Hr.
    simpl in Hh.
    split; simpl; auto; lia.
Qed.

Ltac break_inner x :=
  lazymatch x with
  | context [match ?y with _ => _ end] => break_inner y
  | _ => destruct x eqn:?
  end.

Ltac break_match :=
  match goal with
  | |- context [match ?x with _ => _ end] => break_inner x
  end.

Ltac some_inv :=
  match goal with
  | H : Some _ = Some _ |- _ => inversion H; subst; clear H
  | H : None = Some _ |- _ => discriminate H
  end.

Lemma flushBatch_slots (s : State) :
  SlotsInv s -> SlotsInv (flushBatch s).
Proof.
  intros [Hc Ho Hh Hb]. unfold flushBatch.
  repeat break_match; split; simpl; auto.
Qed.

Lemma step_SlotsInv (l : Label) (s s' : State) :
  SlotsInv s -> step l s = Some s' -> SlotsInv s'.
Proof.
  intros I. pose proof I as [Hc Ho Hh Hb]. unfold step.
  destruct (panicked s); [discriminate|].
  destruct l.
  - destruct (dispatcher s); try discriminate. intros E; some_inv.
    unfold outerSelect, processRTPPackets_return.
    repeat break_match; split; simpl; auto.
  - destruct (dispatcher s); try discriminate. intros E; some_inv.
    unfold readPacket, dispatch, send; simpl. rewrite Ho.
    destruct (Nat.ltb_spec (length (buf (workers s))) (cap (workers s))).
    + split; simpl; auto; rewrite ?length_app; simpl; lia.
    + destruct (metricsEnabled (h s)); split; simpl; auto.
  - destruct (dispatcher s); try discriminate. intros E; some_inv.
    unfold readError, processRTPPackets_return; simpl.
    repeat break_match; split; simpl; auto.
  - destruct (nth_error (goroutines s) i) as [pc|] eqn:En; [|discriminate].
    apply nth_error_in_range in En.
    destruct pc; simpl; try (intros E; some_inv; split; simpl;
      rewrite ?replace_length; auto).
    + destruct (send (processedChan (h s)) payload) eqn:Es.
      * intros E; some_inv. split; simpl; rewrite ?replace_length; auto.
      * intros E; some_inv.
        destruct (metricsEnabled (h s)); split; simpl;
          rewrite ?replace_length; auto.
      * destruct (release i s) as [s1|] eqn:Er; intros E; some_inv.
        -- apply (release_slots i s s1) in Er; auto.
           destruct Er; split; simpl; auto.
        -- split; simpl; auto.
    + apply release_slots; auto.
  - destruct (writer s); [|discriminate]. unfold writerChan.
    destruct (recv (processedChan (h s))) eqn:Er; intros E; some_inv.
    + unfold onPayload. destruct (batchSize <=? _)%nat.
      * apply flushBatch_slots. split; simpl; auto.
      * split; simpl; auto.
    + unfold onClosed. destruct (flushBatch_slots s I). split; simpl; auto.
  - destruct (writer s); [|discriminate]. unfold writerTick.
    destruct (recv (tickerC s)) eqn:Er; intros E; some_inv.
    apply flushBatch_slots. split; simpl; auto.
  - destruct (cleanup s); try discriminate. intros E; some_inv.
    unfold closeDone. break_match; split; simpl; auto.
  - destruct (cleanup s); try discriminate. intros E; some_inv.
    split; simpl; auto.
  - unfold advance. destruct (d <? 0); intros E; some_inv.
    unfold fireTicker; simpl. repeat break_match; split; simpl; auto.
Qed.

Lemma exec_SlotsInv (tr : list Label) (s s' : State) :
  SlotsInv s -> exec tr s = Some s' -> SlotsInv s'.
Proof.
  revert s; induction tr as [|l tr IH]; simpl; intros s I E.
  - some_inv. exact I.
  - destruct (step l s) as [s1|] eqn:Es; [|discriminate].
    apply (IH s1); [eapply step_SlotsInv; eassumption | exact E].
Qed.

Lemma nth_error_replace {A : Type} (i : nat) (x : A) (l : list A) :
  (i < length l)%nat -> nth_error (replace i x l) i = Some x.
Proof.
  revert i; induction l as [|y l IH]; intros [|i]; simpl; intros Hi;
    try lia; auto.
  apply IH; lia.
Qed.

(** How many steps a worker still has before its release. *)
Definition rank (pc : WorkerPc) : nat :=
  match pc with
  | Offer _ => 7
  | IncLoad => 6
  | IncStore _ => 5
  | CheckSince => 4
  | PrintRate => 3
  | ResetCounter => 2
  | StampTime => 1
  | Release => 0
  end.

(** A live worker is never blocked: its next step exists, and either it is
    its last one (the slot is back in the pool) or it moves the worker
    closer to its release. *)
Lemma worker_progress (i : nat) (pc : WorkerPc) (s : State) :
  SlotsInv s -> panicked s = false ->
  nth_error (goroutines s) i = Some pc ->
  exists s', step (Worker i) s = Some s' /\ SlotsInv s' /\
    (S (inFlight s') = inFlight s \/
     (panicked s' = false /\ inFlight s' = inFlight s /\
      exists pc', nth_error (goroutines s') i = Some pc' /\
                  (rank pc' < rank pc)%nat)).
Proof.
  intros I Hp En.
  assert (Hi : (i < length (goroutines s))%nat)
    by (eapply nth_error_in_range; eauto).
  assert (Hrel : exists s1, release i s = Some s1 /\
                            S (inFlight s1) = inFlight s /\
                            panicked s1 = panicked s).
  { destruct I as [Hc Ho Hh Hb]. unfold release, recv.
    destruct (buf (workers s)) as [|t rest] eqn:Eb.
    - simpl in Hh. lia.
    - eexists; split; [reflexivity|]. unfold inFlight; simpl.
      split; auto using remove_length. }
  destruct Hrel as (s1 & Er & Hl & Hp1).
  assert (Hstep : forall s2, workerStep i pc s = Some s2 ->
                             step (Worker i) s = Some s2).
  { intros s2 E. unfold step. rewrite Hp, En. exact E. }
  assert (Hgoto : forall pc' s2,
             goroutines s2 = goroutines s -> panicked s2 = false ->
             (rank pc' < rank pc)%nat ->
             panicked (goto i pc' s2) = false /\
             inFlight (goto i pc' s2) = inFlight s /\
             exists pc'', nth_error (goroutines (goto i pc' s2)) i = Some pc'' /\
                          (rank pc'' < rank pc)%nat).
  { intros pc' s2 Eg Ep Hr. unfold inFlight, goto; simpl.
    rewrite Eg, replace_length. repeat split; auto.
    exists pc'. split; auto using nth_error_replace. }
  destruct pc; simpl in Hstep.
  - destruct (send (processedChan (h s)) payload) eqn:Es.
    + eexists; split; [apply Hstep; reflexivity|].
      split; [eapply step_SlotsInv; [exact I | apply Hstep; reflexivity]|].
      right. destruct (metricsEnabled (h s)); apply Hgoto; simpl; auto; lia.
    + eexists; split; [apply Hstep; reflexivity|].
      split; [eapply step_SlotsInv; [exact I | apply Hstep; reflexivity]|].
      right. destruct (metricsEnabled (h s)); apply Hgoto; simpl; auto; lia.
    + rewrite Er in Hstep.
      eexists; split; [apply Hstep; reflexivity|].
      split; [eapply step_SlotsInv; [exact I | apply Hstep; reflexivity]|].
      left. exact Hl.
  - eexists; split; [apply Hstep; reflexivity|].
    split; [eapply step_SlotsInv; [exact I | apply Hstep; reflexivity]|].
    right. apply Hgoto; simpl; auto; lia.
  - eexists; split; [apply Hstep; reflexivity|].
    split; [eapply step_SlotsInv; [exact I | apply Hstep; reflexivity]|].
    right. apply Hgoto; simpl; auto; lia.
  - eexists; split; [apply Hstep; reflexivity|].
    split; [eapply step_SlotsInv; [exact I | apply Hstep; reflexivity]|].
    right. destruct (Second <=? now s - lastMetricTime s);
      apply Hgoto; simpl; auto; lia.
  - eexists; split; [apply Hstep; reflexivity|].
    split; [eapply step_SlotsInv; [exact I | apply Hstep; reflexivity]|].
    right. apply Hgoto; simpl; auto; lia.
  - eexists; split; [apply Hstep; reflexivity|].
    split; [eapply step_SlotsInv; [exact I | apply Hstep; reflexivity]|].
    right. apply Hgoto; simpl; auto; lia.
  - eexists; split; [apply Hstep; reflexivity|].
    split; [eapply step_SlotsInv; [exact I | apply Hstep; reflexivity]|].
    right. apply Hgoto; simpl; auto; lia.
  - exists s1. split; [apply Hstep; exact Er|].
    split; [eapply step_SlotsInv; [exact I | apply Hstep; exact Er]|].
    left. exact Hl.
Qed.

Lemma worker_finishes (r : nat) :
  forall (i : nat) (pc : WorkerPc) (s : State),
  (rank pc <= r)%nat ->
  SlotsInv s -> panicked s = false ->
  nth_error (goroutines s) i = Some pc ->
  exists k s', (k <= S r)%nat /\ exec (repeat (Worker i) k) s = Some s' /\
               SlotsInv s' /\ S (inFlight s') = inFlight s.
Proof.
  induction r as [|r IH]; intros i pc s Hr I Hp En;
    destruct (worker_progress i pc s I Hp En) as (s1 & Es & I1 & [Hd | Hc]).
  - exists 1%nat, s1. simpl. rewrite Es. auto.
  - destruct Hc as (_ & _ & pc' & _ & Hlt). exfalso; lia.
  - exists 1%nat, s1. simpl. rewrite Es. split; [lia|]. auto.
  - destruct Hc as (Hp1 & Hl & pc' & En' & Hlt).
    destruct (IH i pc' s1) as (k & s' & Hk & Ex & I' & Hl'); auto; try lia.
    exists (S k), s'. simpl. rewrite Es. split; [lia|].
    split; [exact Ex|]. split; [exact I'|]. unfold inFlight in *; lia.
Qed.

(** ** Counting goroutines and lines *)

Lemma count_replace {A : Type} (f : A -> bool) (i : nat) (x y : A) (l : list A) :
  nth_error l i = Some y ->
  (length (filter f (replace i x l)) + (if f y then 1 else 0) =
   length (filter f l) + (if f x then 1 else 0))%nat.
Proof.
  revert i; induction l as [|z l IH]; intros [|i]; simpl; try discriminate.
  - intros E; inversion E; subst. destruct (f x), (f y); simpl; lia.
  - intros E. specialize (IH i E). destruct (f z); simpl; lia.
Qed.

Lemma count_remove {A : Type} (f : A -> bool) (i : nat) (y : A) (l : list A) :
  nth_error l i = Some y ->
  (length (filter f (remove i l)) + (if f y then 1 else 0) =
   length (filter f l))%nat.
Proof.
  revert i; induction l as [|z l IH]; intros [|i]; simpl; try discriminate.
  - intros E; inversion E; subst. destruct (f y); simpl; lia.
  - intros E. specialize (IH i E). destruct (f z); simpl; lia.
Qed.

Lemma count_snoc {A : Type} (f : A -> bool) (x : A) (l : list A) :
  length (filter f (l ++ [x])) =
  (length (filter f l) + (if f x then 1 else 0))%nat.
Proof.
  rewrite filter_app, length_app. simpl. destruct (f x); reflexivity.
Qed.

(** ** The sink log *)

Definition ok (p : Payload) : Payload * bool := (p, true).

Lemma delivered_app (l1 l2 : list (Payload * bool)) :
  delivered (l1 ++ l2) = delivered l1 ++ delivered l2.
Proof.
  unfold delivered. rewrite filter_app, map_app. reflexivity.
Qed.

Lemma delivered_ok (ps : list Payload) : delivered (map ok ps) = ps.
Proof.
  induction ps as [|p ps IH]; simpl; [reflexivity|].
  unfold delivered in *; simpl. rewrite IH. reflexivity.
Qed.

Lemma allOk_app (l1 l2 : list (Payload * bool)) :
  allOk (l1 ++ l2) = allOk l1 && allOk l2.
Proof.
  apply forallb_app.
Qed.

Lemma allOk_ok (ps : list Payload) : allOk (map ok ps) = true.
Proof.
  induction ps as [|p ps IH]; simpl; auto.
Qed.

(** Whether a flush of [ps] into sink [w] would run to its end. *)
Definition writesSucceed (w : W) (ps : list Payload) : bool :=
  snd (writeEach w [] ps).

(** The loop of [flushBatch] writes a prefix of the batch, in order; it
    stops at the first failing write, which is then the last entry of the
    log. *)
Lemma writeEach_spec (ps : list Payload) :
  forall (w : W) (log : list (Payload * bool)),
  match writeEach w log ps with
  | (_, log', true) => log' = log ++ map ok ps
  | (_, log', false) =>
      exists pre q post, ps = pre ++ q :: post /\
                         log' = log ++ map ok pre ++ [(q, false)]
  end.
Proof.
  induction ps as [|p ps IH]; intros w log; simpl.
  - rewrite app_nil_r. reflexivity.
  - destruct (Write w p) as [w' [|]].
    + specialize (IH w' (log ++ [(p, true)])).
      destruct (writeEach w' (log ++ [(p, true)]) ps) as [[w'' log'] [|]].
      * rewrite IH, <- app_assoc. reflexivity.
      * destruct IH as (pre & q & post & E & L).
        exists (p :: pre), q, post. subst. simpl.
        rewrite <- app_assoc. auto.
    + exists [], p, ps. auto.
Qed.

Lemma writeEach_outcome (ps : list Payload) :
  forall (w : W) (log : list (Payload * bool)),
  snd (writeEach w log ps) = writesSucceed w ps.
Proof.
  unfold writesSucceed.
  induction ps as [|p ps IH]; intros w log; simpl; [reflexivity|].
  destruct (Write w p) as [w' [|]]; [|reflexivity].
  rewrite (IH w' (log ++ [(p, true)])), (IH w' [(p, true)]).
  reflexivity.
Qed.

(** [flushBatch] when every write succeeds: the batch goes to the sink in
    batch order and is cleared. *)
Lemma flushBatch_success (s : State) :
  writesSucceed (ffmpegStdin (h s)) (batch s) = true ->
  sinkLog (flushBatch s) = sinkLog s ++ map ok (batch s) /\
  batch (flushBatch s) = [] /\
  stdout (flushBatch s) = stdout s.
Proof.
  intros Hw. unfold flushBatch.
  destruct (batch s) as [|p ps] eqn:Eb.
  - simpl. rewrite app_nil_r, Eb. auto.
  - rewrite <- Eb in *.
    pose proof (writeEach_spec (batch s) (ffmpegStdin (h s)) (sinkLog s)) as S.
    pose proof (writeEach_outcome (batch s) (ffmpegStdin (h s)) (sinkLog s)) as O.
    destruct (writeEach (ffmpegStdin (h s)) (sinkLog s) (batch s))
      as [[w log] b]. simpl in O. rewrite Hw in O. subst b. simpl. auto.
Qed.

(** [flushBatch] when a write fails: the writes before it went through, the
    batch is kept whole and the error is printed. *)
Lemma flushBatch_failure (s : State) :
  writesSucceed (ffmpegStdin (h s)) (batch s) = false ->
  exists pre q post,
    batch s = pre ++ q :: post /\
    sinkLog (flushBatch s) = sinkLog s ++ map ok pre ++ [(q, false)] /\
    batch (flushBatch s) = batch s /\
    stdout (flushBatch s) = stdout s ++ [ErrorWritingFFmpeg].
Proof.
  intros Hw. unfold flushBatch.
  destruct (batch s) as [|p ps] eqn:Eb.
  - unfold writesSucceed in Hw. simpl in Hw. discriminate.
  - rewrite <- Eb in *.
    pose proof (writeEach_spec (batch s) (ffmpegStdin (h s)) (sinkLog s)) as S.
    pose proof (writeEach_outcome (batch s) (ffmpegStdin (h s)) (sinkLog s)) as O.
    destruct (writeEach (ffmpegStdin (h s)) (sinkLog s) (batch s))
      as [[w log] b]. simpl in O. rewrite Hw in O. subst b.
    destruct S as (pre & q & post & E & L).
    exists pre, q, post. simpl. auto.
Qed.

(** What [flushBatch] leaves alone. *)
Lemma flushBatch_frame (s : State) :
  let s' := flushBatch s in
  processedChan (h s') = processedChan (h s) /\
  done (h s') = done (h s) /\
  workerCount (h s') = workerCount (h s) /\
  metricsEnabled (h s') = metricsEnabled (h s) /\
  packetCounter s' = packetCounter s /\
  lastMetricTime s' = lastMetricTime s /\
  workers s' = workers s /\
  dispatcher s' = dispatcher s /\
  goroutines s' = goroutines s /\
  tickerC s' = tickerC s /\
  tickerWhen s' = tickerWhen s /\
  writer s' = writer s /\
  cleanup s' = cleanup s /\
  now s' = now s /\
  panicked s' = panicked s /\
  attempts s' = attempts s /\
  accepted s' = accepted s /\
  drained s' = drained s.
Proof.
  unfold flushBatch. destruct (batch s) as [|p l] eqn:Eb; [simpl; tauto|].
  rewrite <- Eb.
  destruct (writeEach (ffmpegStdin (h s)) (sinkLog s) (batch s))
    as [[w log] [|]]; simpl; tauto.
Qed.

(** The log only grows, and a flush that leaves it free of failures has
    succeeded. *)
Lemma flushBatch_log (s : State) :
  exists ext, sinkLog (flushBatch s) = sinkLog s ++ ext /\
    (allOk ext = true ->
     ext = map ok (batch s) /\ batch (flushBatch s) = [] /\
     stdout (flushBatch s) = stdout s).
Proof.
  destruct (writesSucceed (ffmpegStdin (h s)) (batch s)) eqn:Hw.
  - destruct (flushBatch_success s Hw) as (L & B & O).
    exists (map ok (batch s)). auto.
  - destruct (flushBatch_failure s Hw) as (pre & q & post & E & L & B & O).
    exists (map ok pre ++ [(q, false)]). split; [exact L|].
    rewrite allOk_app, andb_comm. simpl. discriminate.
Qed.

(** The configuration never changes: the pool size, the metrics flag set by
    [newStreamHandler], and the queue's capacity. *)
Record Config (n : nat) (s : State) : Prop := {
  cfg_workers : workerCount (h s) = n;
  cfg_metrics : metricsEnabled (h s) = true;
  cfg_cap : cap (processedChan (h s)) = 100%nat
}.

Ltac unfold_step :=
  unfold step, outerSelect, readPacket, readError, processRTPPackets_return,
    dispatch, workerStep, release, goto, writerChan, writerTick, onPayload,
    onClosed, flushBatch, advance, fireTicker, closeDone, closeStdin,
    println, set_processedChan in *.

(** What an outcome of a channel operation says about the channel. *)
Ltac chan_facts :=
  repeat match goal with
  | E : send _ _ = Sent _ |- _ =>
      apply send_Sent in E; destruct E as (? & ? & ? & ? & ?)
  | E : send _ _ = SendWouldBlock |- _ =>
      apply send_WouldBlock in E; destruct E as (? & ?)
  | E : send _ _ = SendPanic |- _ => apply send_Panic in E
  | E : recv _ = Received _ _ |- _ =>
      apply recv_Received in E; destruct E as (? & ? & ?)
  | E : recv _ = RecvClosed |- _ =>
      apply recv_Closed in E; destruct E as (? & ?)
  | E : recv _ = RecvWouldBlock |- _ =>
      apply recv_WouldBlock in E; destruct E as (? & ?)
  | E : close _ = Some _ |- _ =>
      apply close_Some in E; destruct E as (? & ? & ? & ?)
  | E : close _ = None |- _ => apply close_None in E
  end.

Ltac step_cases :=
  unfold_step; simpl in *;
  repeat (break_match; simpl in *; try discriminate);
  intros; repeat some_inv; chan_facts; simpl in *.

Lemma Config_start (n : nat) (stdin : W) (t0 : Time) :
  Config n (start n stdin t0).
Proof.
  split; reflexivity.
Qed.

Lemma step_Config (n : nat) (l : Label) (s s' : State) :
  Config n s -> step l s = Some s' -> Config n s'.
Proof.
  intros [Hw Hm Hc]. revert s'. step_cases; split; simpl; auto; try congruence.
Qed.

Lemma exec_Config (n : nat) (tr : list Label) (s s' : State) :
  Config n s -> exec tr s = Some s' -> Config n s'.
Proof.
  revert s; induction tr as [|l tr IH]; simpl; intros s I E.
  - some_inv. exact I.
  - destruct (step l s) as [s1|] eqn:Es; [|discriminate].
    apply (IH s1); [eapply step_Config; eassumption | exact E].
Qed.


(** ** The handoff queue *)

(** The queue never holds more than its capacity; what it accepted is what
    the writer has drained followed by what it still holds, in order; it is
    closed exactly when [processRTPPackets] has returned; and the writer
    returns only from a closed and drained queue. *)
Record QueueInv (s : State) : Prop := {
  q_bound : (length (buf (processedChan (h s))) <= cap (processedChan (h s)))%nat;
  q_fifo : accepted s = drained s ++ buf (processedChan (h s));
  q_closed : closed (processedChan (h s)) = true <-> dispatcher s = Returned;
  q_done : writer s = WriterReturned ->
           closed (processedChan (h s)) = true /\ buf (processedChan (h s)) = []
}.

Lemma QueueInv_start (n : nat) (stdin : W) (t0 : Time) :
  QueueInv (start n stdin t0).
Proof.
  split; simpl; auto; try lia; try discriminate.
  split; discriminate.
Qed.

Ltac list_eq :=
  repeat match goal with
  | E : buf _ = _ |- _ => rewrite E in *; clear E
  | E : accepted _ = _ |- _ => rewrite E in *; clear E
  end;
  simpl in *; rewrite <- ?app_assoc, ?length_app in *; simpl in *.

Lemma step_QueueInv (l : Label) (s s' : State) :
  QueueInv s -> step l s = Some s' -> QueueInv s'.
Proof.
  intros [Hb Hf Hc Hd]. revert s'.
  step_cases; split; simpl in *;
    try solve [ auto
              | intuition congruence
              | list_eq; auto; lia
              | list_eq; intros; intuition (try congruence; try discriminate)
              | match goal with E : closed _ = closed _ |- _ => rewrite E end;
                assumption ].
Qed.

(** ** Accounting of dispatch attempts *)

(** While the process has not panicked, every dispatch attempt is in exactly
    one place: its payload was accepted by the queue, or a drop line was
    printed for it, or its worker has not made its offer yet. *)
Definition Accounted (s : State) : Prop :=
  panicked s = false ->
  attempts s = (length (accepted s) + drops s + pendingOffers s)%nat.

Ltac count_goroutines :=
  repeat match goal with
  | E : nth_error (goroutines ?s) ?i = Some ?y
    |- context [replace ?i ?x (goroutines ?s)] =>
      let C := fresh "C" in
      pose proof (count_replace isOffer i x y _ E) as C; simpl in C;
      generalize dependent (replace i x (goroutines s)); intros
  | E : nth_error (goroutines ?s) ?i = Some ?y
    |- context [remove ?i (goroutines ?s)] =>
      let C := fresh "C" in
      pose proof (count_remove isOffer i y _ E) as C; simpl in C;
      generalize dependent (remove i (goroutines s)); intros
  end.

Lemma step_Accounted (n : nat) (l : Label) (s s' : State) :
  Config n s -> SlotsInv s -> Accounted s ->
  step l s = Some s' -> Accounted s'.
Proof.
  intros [Hw Hm Hc] [Sc So Sh Sb] A. unfold Accounted in *. revert s'.
  unfold drops, pendingOffers in *.
  step_cases; try congruence;
    rewrite ?count_snoc, ?length_app in *; simpl in *;
    count_goroutines; try specialize (A eq_refl); try lia.
Qed.

(** ** The writer *)

(** As long as no write has failed: what the sink received followed by the
    batch is what the writer drained, in order; the batch is below the
    threshold whenever the writer is back at its [select]; and the writer
    leaves nothing behind when it returns. *)
Record WriterInv (s : State) : Prop := {
  w_fifo : delivered (sinkLog s) ++ batch s = drained s;
  w_bound : (length (batch s) < batchSize)%nat;
  w_done : writer s = WriterReturned -> batch s = []
}.

Definition WriterOk (s : State) : Prop :=
  allOk (sinkLog s) = true -> WriterInv s.

Lemma WriterOk_start (n : nat) (stdin : W) (t0 : Time) :
  WriterOk (start n stdin t0).
Proof.
  intros _. split; simpl; auto. unfold batchSize; lia.
Qed.

(** A flush on top of a healthy writer state, when its own writes succeed. *)
Lemma flushBatch_WriterInv (s : State) :
  (allOk (sinkLog s) = true -> delivered (sinkLog s) ++ batch s = drained s) ->
  allOk (sinkLog (flushBatch s)) = true ->
  allOk (sinkLog s) = true /\
  batch (flushBatch s) = [] /\
  delivered (sinkLog (flushBatch s)) = drained s /\
  stdout (flushBatch s) = stdout s.
Proof.
  intros I Hok.
  destruct (flushBatch_log s) as (ext & L & Hext).
  rewrite L, allOk_app in Hok. apply andb_true_iff in Hok as [Hs He].
  destruct (Hext He) as (E & B & O). subst ext.
  rewrite L, delivered_app, delivered_ok. auto.
Qed.

Lemma step_WriterOk (l : Label) (s s' : State) :
  WriterOk s -> step l s = Some s' -> WriterOk s'.
Proof.
  intros I. unfold WriterOk in *.
  destruct l;
    try solve [ revert s'; step_cases;
                match goal with Hk : allOk _ = true |- _ =>
                  destruct (I Hk) as [Hf Hb Hd] end;
                split; simpl; auto ].
  - (* WriterChan *)
    unfold step. destruct (panicked s); [discriminate|].
    destruct (writer s) eqn:Ew; [|discriminate]. unfold writerChan.
    destruct (recv (processedChan (h s))) as [p c| |] eqn:Er;
      [| |discriminate]; intros E; some_inv.
    + unfold onPayload.
      set (s1 := set_batch _ _).
      assert (I1 : allOk (sinkLog s1) = true ->
                   delivered (sinkLog s1) ++ batch s1 = drained s1).
      { subst s1; simpl. intros Hk. destruct (I Hk) as [Hf _ _].
        rewrite app_assoc, Hf. reflexivity. }
      destruct (Nat.leb_spec batchSize (length (batch s1))) as [Hge|Hlt].
      * intros Hk.
        destruct (flushBatch_WriterInv s1 I1 Hk) as (_ & B & D & _).
        pose proof (flushBatch_frame s1) as F; simpl in F.
        destruct F as (_&_&_&_&_&_&_&_&_&_&_&Fw&_&_&_&_&_&Fd).
        split.
        -- rewrite B, app_nil_r, D, Fd. reflexivity.
        -- rewrite B. unfold batchSize; simpl; lia.
        -- rewrite Fw. subst s1; simpl. rewrite Ew. discriminate.
      * intros Hk. split; auto.
        subst s1; simpl. rewrite Ew. discriminate.
    + unfold onClosed. simpl. intros Hk.
      assert (I1 : allOk (sinkLog s) = true ->
                   delivered (sinkLog s) ++ batch s = drained s)
        by (intros Hs; destruct (I Hs); auto).
      destruct (flushBatch_WriterInv s I1 Hk) as (_ & B & D & _).
      pose proof (flushBatch_frame s) as F; simpl in F.
      destruct F as (_&_&_&_&_&_&_&_&_&_&_&_&_&_&_&_&_&Fd).
      split; simpl.
      * rewrite B, app_nil_r, D, Fd. reflexivity.
      * rewrite B. unfold batchSize; simpl; lia.
      * intros _. exact B.
  - (* WriterTick *)
    unfold step. destruct (panicked s); [discriminate|].
    destruct (writer s) eqn:Ew; [|discriminate]. unfold writerTick.
    destruct (recv (tickerC s)) as [t c| |] eqn:Er; try discriminate.
    intros E; some_inv.
    set (s1 := set_tickerC c s).
    assert (I1 : allOk (sinkLog s1) = true ->
                 delivered (sinkLog s1) ++ batch s1 = drained s1)
      by (subst s1; simpl; intros Hs; destruct (I Hs); auto).
    intros Hk.
    destruct (flushBatch_WriterInv s1 I1 Hk) as (_ & B & D & _).
    pose proof (flushBatch_frame s1) as F; simpl in F.
    destruct F as (_&_&_&_&_&_&_&_&_&_&_&Fw&_&_&_&_&_&Fd).
    split.
    + rewrite B, app_nil_r, D, Fd. reflexivity.
    + rewrite B. unfold batchSize; simpl; lia.
    + rewrite Fw. subst s1; simpl. rewrite Ew. discriminate.
Qed.

(** ** The ticker *)

Lemma next_deadline (a w : Z) :
  w <= a ->
  a < w + flushInterval * (1 + (a - w) / flushInterval) <= a + flushInterval.
Proof.
  intros Hw. unfold flushInterval, Millisecond.
  pose proof (Z.div_mod (a - w) 5000000) as D.
  pose proof (Z.mod_pos_bound (a - w) 5000000) as B.
  change (5 * 1000000) with 5000000. lia.
Qed.

(** [ticker.C] has one slot and stays open; while the writer runs, the next
    deadline lies ahead, at most one flush interval away. *)
Record TickerInv (s : State) : Prop := {
  t_cap : cap (tickerC s) = 1%nat;
  t_open : closed (tickerC s) = false;
  t_when : writer s = InLoop ->
           now s < tickerWhen s <= now s + flushInterval
}.

Lemma TickerInv_start (n : nat) (stdin : W) (t0 : Time) :
  TickerInv (start n stdin t0).
Proof.
  split; simpl; auto. intros _. unfold flushInterval, Millisecond. lia.
Qed.

Lemma step_TickerInv (l : Label) (s s' : State) :
  TickerInv s -> step l s = Some s' -> TickerInv s'.
Proof.
  intros [Hc Ho Hw].
  destruct l;
    try solve [ revert s'; step_cases; split; simpl; auto; congruence ].
  - (* Advance *)
    unfold step. destruct (panicked s); [discriminate|].
    unfold advance. destruct (Z.ltb_spec d 0); [discriminate|].
    intros E; some_inv. unfold fireTicker; simpl.
    destruct (writer s) eqn:Ew.
    + specialize (Hw eq_refl).
      destruct (Z.leb_spec (tickerWhen s) (now s + d)) as [Hle|Hgt].
      * pose proof (next_deadline (now s + d) (tickerWhen s) Hle) as N.
        split; simpl.
        -- destruct (send (tickerC s) (now s + d)) eqn:Es; chan_facts;
             congruence.
        -- destruct (send (tickerC s) (now s + d)) eqn:Es; chan_facts;
             congruence.
        -- intros _. exact N.
      * split; simpl; auto. intros _. lia.
    + split; simpl; auto. rewrite Ew. discriminate.
Qed.

(** ** All invariants together *)

Record Inv (n : nat) (s : State) : Prop := {
  inv_config : Config n s;
  inv_slots : SlotsInv s;
  inv_queue : QueueInv s;
  inv_accounted : Accounted s;
  inv_writer : WriterOk s;
  inv_ticker : TickerInv s
}.

Lemma Inv_start (n : nat) (stdin : W) (t0 : Time) : Inv n (start n stdin t0).
Proof.
  split.
  - apply Config_start.
  - apply SlotsInv_start.
  - apply QueueInv_start.
  - intros _. reflexivity.
  - apply WriterOk_start.
  - apply TickerInv_start.
Qed.

Lemma step_Inv (n : nat) (l : Label) (s s' : State) :
  Inv n s -> step l s = Some s' -> Inv n s'.
Proof.
  intros [C S Q A Wr T] E. split.
  - eapply step_Config; eassumption.
  - eapply step_SlotsInv; eassumption.
  - eapply step_QueueInv; eassumption.
  - eapply step_Accounted; eassumption.
  - eapply step_WriterOk; eassumption.
  - eapply step_TickerInv; eassumption.
Qed.

Lemma exec_Inv (n : nat) (tr : list Label) (s s' : State) :
  Inv n s -> exec tr s = Some s' -> Inv n s'.
Proof.
  revert s; induction tr as [|l tr IH]; simpl; intros s I E.
  - some_inv. exact I.
  - destruct (step l s) as [s1|] eqn:Es; [|discriminate].
    apply (IH s1); [eapply step_Inv; eassumption | exact E].
Qed.

Lemma reachable_Inv
  (n : nat) (stdin : W) (t0 : Time) (tr : list Label) (s : State) :
  exec tr (start n stdin t0) = Some s -> Inv n s.
Proof.
  apply exec_Inv, Inv_start.
Qed.

Lemma exec_app (tr1 tr2 : list Label) (s : State) :
  exec (tr1 ++ tr2) s =
  match exec tr1 s with Some s1 => exec tr2 s1 | None => None end.
Proof.
  revert s; induction tr1 as [|l tr1 IH]; simpl; intros s; [reflexivity|].
  destruct (step l s); auto.
Qed.

(** ** Staleness of the batch *)

(** The log and the drained sequence only grow. *)
Lemma step_grows (l : Label) (s s' : State) :
  step l s = Some s' ->
  (exists ext, sinkLog s' = sinkLog s ++ ext) /\
  (exists more, drained s' = drained s ++ more).
Proof.
  assert (Hnil : forall A (x : list A), exists e, x = x ++ e)
    by (intros A x; exists []; rewrite app_nil_r; reflexivity).
  destruct l;
    try solve [ revert s'; step_cases; split; simpl; auto ].
  - (* WriterChan *)
    unfold step. destruct (panicked s); [discriminate|].
    destruct (writer s) eqn:Ew; [|discriminate]. unfold writerChan.
    destruct (recv (processedChan (h s))) as [p c| |] eqn:Er;
      [| |discriminate]; intros E; some_inv.
    + unfold onPayload. set (s1 := set_batch _ _).
      pose proof (flushBatch_frame s1) as F; simpl in F.
      destruct F as (_&_&_&_&_&_&_&_&_&_&_&_&_&_&_&_&_&Fd).
      destruct (flushBatch_log s1) as (ext & L & _).
      destruct (batchSize <=? length (batch s1))%nat.
      * rewrite L, Fd. subst s1; simpl. eauto.
      * subst s1; simpl. eauto.
    + unfold onClosed; simpl.
      pose proof (flushBatch_frame s) as F; simpl in F.
      destruct F as (_&_&_&_&_&_&_&_&_&_&_&_&_&_&_&_&_&Fd).
      destruct (flushBatch_log s) as (ext & L & _).
      rewrite L, Fd. eauto.
  - (* WriterTick *)
    unfold step. destruct (panicked s); [discriminate|].
    destruct (writer s) eqn:Ew; [|discriminate]. unfold writerTick.
    destruct (recv (tickerC s)) as [t c| |] eqn:Er; try discriminate.
    intros E; some_inv.
    pose proof (flushBatch_frame (set_tickerC c s)) as F; simpl in F.
    destruct F as (_&_&_&_&_&_&_&_&_&_&_&_&_&_&_&_&_&Fd).
    destruct (flushBatch_log (set_tickerC c s)) as (ext & L & _).
    rewrite L, Fd. simpl. eauto.
Qed.

(** Steps of the other goroutines leave the writer, its ticker and the
    clock alone. *)
Definition foreign (l : Label) : bool :=
  match l with
  | WriterChan | WriterTick | Advance _ => false
  | _ => true
  end.

Lemma step_foreign (l : Label) (s s' : State) :
  foreign l = true -> step l s = Some s' ->
  sinkLog s' = sinkLog s /\ drained s' = drained s /\ batch s' = batch s /\
  writer s' = writer s /\ tickerC s' = tickerC s /\
  tickerWhen s' = tickerWhen s /\ now s' = now s.
Proof.
  destruct l; simpl; try discriminate; intros _; revert s';
    step_cases; simpl; tauto.
Qed.

(** Relative to an earlier state [s0], in a run that is on time: everything
    drained by [s0] has reached the sink, or else the writer is in its loop,
    one flush interval has not yet gone by since [s0], and a tick is waiting
    or the ticker's deadline falls within that interval. *)
Definition Fresh (s0 s : State) : Prop :=
  allOk (sinkLog s) = true ->
  (length (drained s0) <= length (delivered (sinkLog s)))%nat \/
  (writer s = InLoop /\ now s <= now s0 + flushInterval /\
   (buf (tickerC s) <> [] \/ tickerWhen s <= now s0 + flushInterval)).

Lemma Fresh_refl (n : nat) (s0 : State) : Inv n s0 -> Fresh s0 s0.
Proof.
  intros [_ _ _ _ Wr [_ _ Tw]] Hk.
  destruct (writer s0) eqn:Ew.
  - right. specialize (Tw eq_refl).
    split; [reflexivity|]. split; [|right; lia].
    unfold flushInterval, Millisecond. lia.
  - left. destruct (Wr Hk) as [Wf _ Wd].
    rewrite <- Wf, (Wd Ew), app_nil_r. lia.
Qed.

(** Whether the clock may move on by [d] from [s] without the writer being
    late: no tick is waiting on [ticker.C] for a writer in its loop, and the
    clock does not go past the ticker's deadline (the runtime sends the tick
    when the deadline comes). *)
Definition onTime (d : Z) (s : State) : bool :=
  match writer s with
  | WriterReturned => true
  | InLoop =>
      match buf (tickerC s) with
      | [] => now s + d <=? tickerWhen s
      | _ :: _ => false
      end
  end.

(** A schedule in which the clock only moves while the writer is on time. *)
Fixpoint prompt (schedule : list Label) (s : State) : bool :=
  match schedule with
  | [] => true
  | l :: rest =>
      match l with Advance d => onTime d s | _ => true end &&
      match step l s with
      | Some s' => prompt rest s'
      | None => true
      end
  end.

Lemma step_Fresh (n : nat) (l : Label) (s0 s s' : State) :
  Inv n s -> (length (drained s0) <= length (drained s))%nat ->
  Fresh s0 s ->
  match l with Advance d => onTime d s | _ => true end = true ->
  step l s = Some s' -> Fresh s0 s'.
Proof.
  intros I Hmono F Ht E.
  pose proof (step_Inv n l s s' I E) as I'.
  destruct (step_grows l s s' E) as ((ext & L) & (more & D)).
  intros Hk.
  assert (Hks : allOk (sinkLog s) = true).
  { rewrite L, allOk_app in Hk. apply andb_true_iff in Hk. tauto. }
  assert (Hlen : (length (delivered (sinkLog s)) <=
                  length (delivered (sinkLog s')))%nat).
  { rewrite L, delivered_app, length_app. lia. }
  assert (Hflushed : batch s' = [] ->
            (length (drained s0) <= length (delivered (sinkLog s')))%nat).
  { intros B. destruct I' as [_ _ _ _ Wr' _].
    destruct (Wr' Hk) as [Wf _ _]. rewrite B, app_nil_r in Wf.
    rewrite Wf, D, length_app. lia. }
  specialize (F Hks).
  destruct (foreign l) eqn:Fl.
  - destruct (step_foreign l s s' Fl E) as (Es & Ed & Eb & Ew & Ec & Et & En).
    rewrite Ew, Ec, Et, En.
    destruct F as [F|F]; [left; lia | right; exact F].
  - destruct F as [F|F]; [left; lia|].
    destruct l; try discriminate; clear Fl; unfold step in E;
      destruct (panicked s); try discriminate.
    + (* WriterChan *)
      destruct (writer s) eqn:Ew; [|discriminate]. unfold writerChan in E.
      destruct (recv (processedChan (h s))) as [p c| |] eqn:Er;
        [| |discriminate].
      * unfold onPayload in E. set (s1 := set_batch _ _) in E.
        destruct (batchSize <=? length (batch s1))%nat;
          inversion E; subst s'; clear E.
        -- left. apply Hflushed.
           assert (I1 : allOk (sinkLog s1) = true ->
                        delivered (sinkLog s1) ++ batch s1 = drained s1).
           { subst s1; simpl. intros _. destruct I as [_ _ _ _ Wr _].
             destruct (Wr Hks) as [Wf _ _].
             rewrite app_assoc, Wf. reflexivity. }
           destruct (flushBatch_WriterInv s1 I1 Hk) as (_ & B & _). exact B.
        -- right. subst s1; simpl. rewrite Ew. exact F.
      * inversion E; subst s'; clear E.
        left. apply Hflushed. unfold onClosed in *. simpl in *.
        assert (I1 : allOk (sinkLog s) = true ->
                     delivered (sinkLog s) ++ batch s = drained s).
        { intros _. destruct I as [_ _ _ _ Wr _].
          destruct (Wr Hks) as [Wf _ _]. exact Wf. }
        destruct (flushBatch_WriterInv s I1 Hk) as (_ & B & _). exact B.
    + (* WriterTick *)
      destruct (writer s) eqn:Ew; [|discriminate]. unfold writerTick in E.
      destruct (recv (tickerC s)) as [t c| |] eqn:Er; try discriminate.
      some_inv. left. apply Hflushed.
      set (s1 := set_tickerC c s) in *.
      assert (I1 : allOk (sinkLog s1) = true ->
                   delivered (sinkLog s1) ++ batch s1 = drained s1).
      { subst s1; simpl. intros _. destruct I as [_ _ _ _ Wr _].
        destruct (Wr Hks) as [Wf _ _]. exact Wf. }
      destruct (flushBatch_WriterInv s1 I1 Hk) as (_ & B & _). exact B.
    + (* Advance *)
      unfold advance in E. destruct (Z.ltb_spec d 0); [discriminate|].
      some_inv. right. unfold fireTicker; simpl.
      destruct F as (Ew & Fn & Fc). unfold onTime in Ht. rewrite Ew in *.
      destruct (buf (tickerC s)) eqn:Eb; [|discriminate].
      apply Z.leb_le in Ht.
      destruct Fc as [Fc|Fc]; [congruence|].
      destruct I as [_ _ _ _ _ [Tc To _]].
      destruct (Z.leb_spec (tickerWhen s) (now s + d)) as [Hle|Hgt]; simpl.
      * split; [exact Ew|]. split; [lia|]. left.
        destruct (send (tickerC s) (now s + d)) eqn:Es; chan_facts.
        -- match goal with Ec : buf _ = _ ++ _ |- _ => rewrite Ec end.
           rewrite Eb. discriminate.
        -- rewrite Eb in *. simpl in *. lia.
        -- congruence.
      * split; [exact Ew|]. split; [lia|]. right. exact Fc.
Qed.

Lemma exec_Fresh (n : nat) (tr : list Label) :
  forall (s0 s s' : State),
  Inv n s -> (length (drained s0) <= length (drained s))%nat ->
  Fresh s0 s -> prompt tr s = true -> exec tr s = Some s' ->
  Fresh s0 s' /\ (exists more, drained s' = drained s ++ more) /\
  (exists ext, sinkLog s' = sinkLog s ++ ext).
Proof.
  induction tr as [|l tr IH]; simpl; intros s0 s s' I Hm F P E.
  - some_inv. split; [exact F|].
    split; exists []; rewrite app_nil_r; reflexivity.
  - destruct (step l s) as [s1|] eqn:Es; [|discriminate].
    apply andb_true_iff in P as [P1 P2].
    destruct (step_grows l s s1 Es) as ((e1 & L1) & (m1 & D1)).
    destruct (IH s0 s1 s') as (F' & (m2 & D2) & (e2 & L2)); auto.
    + eapply step_Inv; eassumption.
    + rewrite D1, length_app. lia.
    + eapply step_Fresh; eassumption.
    + split; [exact F'|]. split.
      * exists (m1 ++ m2). rewrite D2, D1, app_assoc. reflexivity.
      * exists (e1 ++ e2). rewrite L2, L1, app_assoc. reflexivity.
Qed.

Lemma prefix_of_app {A : Type} (xs ys zs ws : list A) :
  xs ++ ys = zs ++ ws -> (length zs <= length xs)%nat ->
  exists rest, xs = zs ++ rest.
Proof.
  revert zs; induction xs as [|x xs IH]; intros [|z zs]; simpl; intros E L.
  - exists []. reflexivity.
  - lia.
  - exists (x :: xs). reflexivity.
  - inversion E; subst. destruct (IH zs) as (rest & R); auto; [lia|].
    exists rest. rewrite R at 1. reflexivity.
Qed.

(** ** Draining a closed queue *)

Definition isWriterChan (l : Label) : bool :=
  match l with WriterChan => true | _ => false end.

(** Channel receives the writer still has to make before it returns. *)
Definition drainLeft (s : State) : nat :=
  match writer s with
  | WriterReturned => 0
  | InLoop => S (length (buf (processedChan (h s))))
  end.

(** Once the queue is closed it stays closed and accepts nothing more, and
    only the writer's receives bring it closer to its return, one at a
    time. *)
Lemma step_closed_queue (l : Label) (s s' : State) :
  closed (processedChan (h s)) = true -> step l s = Some s' ->
  closed (processedChan (h s')) = true /\
  accepted s' = accepted s /\
  (drainLeft s' + (if isWriterChan l then 1 else 0) = drainLeft s)%nat.
Proof.
  intros Hc. unfold drainLeft.
  destruct l;
    try solve [ revert s'; step_cases; simpl;
                repeat split; auto; try congruence;
                repeat match goal with
                       | E : writer _ = _ |- _ => rewrite E; clear E
                       end; lia ].
  - (* WriterChan *)
    unfold step. destruct (panicked s); [discriminate|].
    destruct (writer s) eqn:Ew; [|discriminate]. unfold writerChan.
    destruct (recv (processedChan (h s))) as [p c| |] eqn:Er;
      [| |discriminate]; intros E; some_inv; chan_facts.
    + unfold onPayload. set (s1 := set_batch _ _).
      assert (F : processedChan (h s1) = c /\ writer s1 = InLoop /\
                  accepted s1 = accepted s) by (subst s1; simpl; auto).
      pose proof (flushBatch_frame s1) as Fr; simpl in Fr.
      destruct Fr as (Fq&_&_&_&_&_&_&_&_&_&_&Fw&_&_&_&_&Fa&_).
      destruct F as (F1 & F2 & F3).
      match goal with Eb : buf _ = p :: _ |- _ => rewrite Eb end.
      destruct (batchSize <=? length (batch s1))%nat;
        rewrite ?Fq, ?Fw, ?Fa, ?F1, ?F2, ?F3, ?Ew; simpl;
        repeat split; auto; try congruence; lia.
    + unfold onClosed; simpl.
      pose proof (flushBatch_frame s) as Fr; simpl in Fr.
      destruct Fr as (Fq&_&_&_&_&_&_&_&_&_&_&_&_&_&_&_&Fa&_).
      match goal with Eb : buf _ = [] |- _ => rewrite Eb end.
      rewrite Fq, Fa. simpl. auto.
Qed.

Lemma exec_closed_queue (tr : list Label) :
  forall s s' : State,
  closed (processedChan (h s)) = true -> exec tr s = Some s' ->
  closed (processedChan (h s')) = true /\
  accepted s' = accepted s /\
  (drainLeft s' + length (filter isWriterChan tr) = drainLeft s)%nat.
Proof.
  induction tr as [|l tr IH]; simpl; intros s s' Hc E.
  - some_inv. auto with arith.
  - destruct (step l s) as [s1|] eqn:Es; [|discriminate].
    destruct (step_closed_queue l s s1 Hc Es) as (Hc1 & Ha1 & Hd1).
    destruct (IH s1 s' Hc1 E) as (Hc' & Ha' & Hd').
    split; [exact Hc'|]. split; [congruence|].
    destruct (isWriterChan l); simpl; lia.
Qed.
(** * Properties of the pipeline *)

(** C1: from the start of the pipeline with a pool of [n] slots, under every
    schedule, the transforms in flight never exceed [n]; each holds exactly
    one slot of [workers], acquired by the dispatch that started it; and a
    live worker run on its own always reaches its release and gives the
    slot back, whether its offer to the queue was accepted or not. *)
Theorem C1_bounded_concurrency
  (n : nat) (stdin : W) (t0 : Time) (schedule : list Label) (s : State) :
  exec schedule (start n stdin t0) = Some s ->
  (inFlight s <= n)%nat /\
  length (buf (workers s)) = inFlight s /\
  (forall i pc, panicked s = false ->
     nth_error (goroutines s) i = Some pc ->
     exists k s', exec (repeat (Worker i) k) s = Some s' /\
                  S (inFlight s') = inFlight s /\
                  S (length (buf (workers s'))) = length (buf (workers s))).
Proof.
  intros E.
  assert (I : SlotsInv s)
    by (eapply exec_SlotsInv; [apply SlotsInv_start | exact E]).
  assert (C : Config n s)
    by (eapply exec_Config; [apply Config_start | exact E]).
  destruct C as [Hn _ _]. pose proof I as [Hc Ho Hh Hb].
  unfold inFlight. split; [lia|]. split; [exact Hh|].
  intros i pc Hp En.
  destruct (worker_finishes (rank pc) i pc s) as (k & s' & _ & Ex & I' & Hl);
    auto.
  exists k, s'. split; [exact Ex|]. split; [exact Hl|].
  destruct I' as [_ _ Hh' _]. unfold inFlight in Hl. lia.
Qed.



(** C5: when the writer takes a tick it calls [flushBatch]: if the writes
    succeed a batch of any size goes to the sink (the log grows by the
    batch, in order, and the batch is cleared), and an empty batch causes no
    write at all.  The wait is bounded where the writer takes each tick when
    it is due and no write fails: if from a state [s] on the clock never
    goes past the ticker's deadline and never moves while a tick is waiting
    for the writer, then in every later state more than one flush interval
    after [s] the batch of [s] has been written to the sink, in batch
    order, behind what the sink had received by [s]. *)
Theorem C5_tick_flush_and_bounded_wait
  (n : nat) (stdin : W) (t0 : Time) (schedule : list Label) (s : State) :
  exec schedule (start n stdin t0) = Some s ->
  (forall t rest,
     panicked s = false -> writer s = InLoop ->
     buf (tickerC s) = t :: rest ->
     writesSucceed (ffmpegStdin (h s)) (batch s) = true ->
     exists s', step WriterTick s = Some s' /\
       sinkLog s' = sinkLog s ++ map ok (batch s) /\ batch s' = []) /\
  (forall t rest,
     panicked s = false -> writer s = InLoop ->
     buf (tickerC s) = t :: rest -> batch s = [] ->
     exists s', step WriterTick s = Some s' /\
       sinkLog s' = sinkLog s /\ ffmpegStdin (h s') = ffmpegStdin (h s)) /\
  (forall later s',
     exec later s = Some s' ->
     prompt later s = true ->
     allOk (sinkLog s') = true ->
     now s + flushInterval < now s' ->
     exists rest,
       delivered (sinkLog s') = delivered (sinkLog s) ++ batch s ++ rest).
Proof.
  intros E. pose proof (reachable_Inv _ _ _ _ _ E) as I.
  split; [|split].
  - intros t rest Hp Hw Hb Hs.
    unfold step. rewrite Hp, Hw. unfold writerTick, recv. rewrite Hb.
    eexists; split; [reflexivity|].
    set (s1 := set_tickerC _ s).
    assert (Hs1 : writesSucceed (ffmpegStdin (h s1)) (batch s1) = true)
      by exact Hs.
    destruct (flushBatch_success s1 Hs1) as (L & B & _). auto.
  - intros t rest Hp Hw Hb He.
    unfold step. rewrite Hp, Hw. unfold writerTick, recv. rewrite Hb.
    eexists; split; [reflexivity|].
    unfold flushBatch; simpl. rewrite He. auto.
  - intros later s' El Hq Hk Ht.
    destruct (exec_Fresh n later s s s') as (F & (more & D) & (ext & L)); auto.
    { eapply Fresh_refl; eassumption. }
    pose proof (exec_Inv n later s s' I El) as I'.
    destruct (F Hk) as [Hl|(_ & Hn & _)]; [|lia].
    assert (Hks : allOk (sinkLog s) = true).
    { rewrite L, allOk_app in Hk. apply andb_true_iff in Hk. tauto. }
    destruct I as [_ _ _ _ Wr _]. destruct (Wr Hks) as [Wf0 _ _].
    destruct I' as [_ _ _ _ Wr' _]. destruct (Wr' Hk) as [Wf _ _].
    rewrite D in Wf.
    destruct (prefix_of_app _ _ _ _ Wf Hl) as (rest & R).
    exists rest. rewrite R, <- Wf0, <- app_assoc. reflexivity.
Qed.

Lemma worker_step_at (i : nat) (pc : WorkerPc) (s : State) :
  panicked s = false -> nth_error (goroutines s) i = Some pc ->
  step (Worker i) s = workerStep i pc s.
Proof.
  intros Hp En. unfold step. rewrite Hp, En. reflexivity.
Qed.

(** Metrics on one worker: the report is a sequence of four steps. *)
Lemma report_steps (i : nat) (s : State) :
  panicked s = false ->
  nth_error (goroutines s) i = Some CheckSince ->
  (Second <=? now s - lastMetricTime s) = true ->
  exists s', exec (repeat (Worker i) 4) s = Some s' /\
    stdout s' = stdout s ++ [ProcessedPerSec (packetCounter s)] /\
    packetCounter s' = 0 /\
    lastMetricTime s' = now s /\
    nth_error (goroutines s') i = Some Release.
Proof.
  intros Hp En Ht.
  assert (Hi : (i < length (goroutines s))%nat)
    by (eapply nth_error_in_range; eauto).
  assert (G : forall pc s1, (i < length (goroutines s1))%nat ->
              nth_error (goroutines (goto i pc s1)) i = Some pc /\
              (i < length (goroutines (goto i pc s1)))%nat).
  { intros pc s1 H1. unfold goto; simpl. rewrite replace_length.
    split; [apply nth_error_replace|]; auto. }
  simpl.
  rewrite (worker_step_at i CheckSince s Hp En). simpl. rewrite Ht.
  set (s1 := goto i PrintRate s).
  destruct (G PrintRate s Hi) as [E1 H1]. fold s1 in E1, H1.
  rewrite (worker_step_at i PrintRate s1 Hp E1). simpl.
  set (s2 := goto i ResetCounter _).
  destruct (G ResetCounter (println (ProcessedPerSec (packetCounter s1)) s1) H1)
    as [E2 H2]. fold s2 in E2, H2.
  rewrite (worker_step_at i ResetCounter s2 Hp E2). simpl.
  set (s3 := goto i StampTime _).
  destruct (G StampTime (set_packetCounter 0 s2) H2) as [E3 H3].
  fold s3 in E3, H3.
  rewrite (worker_step_at i StampTime s3 Hp E3). simpl.
  eexists; split; [reflexivity|].
  destruct (G Release (set_lastMetricTime (now s3) s3) H3) as [E4 _].
  repeat split; auto.
Qed.

(** C9 (amended): in every reachable state of a process that has not
    panicked, the dispatch attempts are exactly the payloads the queue
    accepted, plus the drop lines printed, plus the workers that have not
    yet made their offer.  The one counter, [packetCounter], is handled by
    the worker after its successful handoff: if at least a second has
    passed since [lastMetricTime] it prints the counter, sets it to zero and
    stamps the time; otherwise it prints nothing and leaves the counter. *)
Theorem C9_attempts_accounted_and_report
  (n : nat) (stdin : W) (t0 : Time) (schedule : list Label) (s : State) :
  exec schedule (start n stdin t0) = Some s ->
  panicked s = false ->
  attempts s = (length (accepted s) + drops s + pendingOffers s)%nat /\
  (forall i, nth_error (goroutines s) i = Some CheckSince ->
     if Second <=? now s - lastMetricTime s
     then exists s', exec (repeat (Worker i) 4) s = Some s' /\
            stdout s' = stdout s ++ [ProcessedPerSec (packetCounter s)] /\
            packetCounter s' = 0 /\
            lastMetricTime s' = now s /\
            nth_error (goroutines s') i = Some Release
     else exists s', step (Worker i) s = Some s' /\
            stdout s' = stdout s /\
            packetCounter s' = packetCounter s /\
            nth_error (goroutines s') i = Some Release).
Proof.
  intros E Hp. pose proof (reachable_Inv _ _ _ _ _ E) as I.
  destruct I as [_ _ _ A _ _]. split; [exact (A Hp)|].
  intros i En. destruct (Second <=? now s - lastMetricTime s) eqn:Ht.
  - apply report_steps; auto.
  - rewrite (worker_step_at i CheckSince s Hp En). simpl. rewrite Ht.
    eexists; split; [reflexivity|]. unfold goto; simpl.
    repeat split; auto.
    apply nth_error_replace. eapply nth_error_in_range; eauto.
Qed.





(** * Further properties of the pipeline *)

(** X1: the handoff queue keeps the capacity [newStreamHandler] gave it,
    100, and never holds more: under every schedule at most 100 accepted
    payloads are waiting for the writer. *)
Theorem X1_queue_within_capacity
  (n : nat) (stdin : W) (t0 : Time) (schedule : list Label) (s : State) :
  exec schedule (start n stdin t0) = Some s ->
  cap (processedChan (h s)) = 100%nat /\
  (length (buf (processedChan (h s))) <= 100)%nat /\
  (length (accepted s) <= length (drained s) + 100)%nat.
Proof.
  intros E. destruct (reachable_Inv _ _ _ _ _ E) as [[_ _ Hc] _ [Qb Qf _ _] _ _ _].
  rewrite Hc in Qb. rewrite Qf, length_app. repeat split; auto; lia.
Qed.

(** ** Stopping *)

(** Packets [processRTPPackets] can still dispatch once [done] is closed:
    one if it is inside [track.ReadRTP], none otherwise. *)
Definition dispatchBudget (s : State) : nat :=
  match dispatcher s with
  | InReadRTP => 1
  | _ => 0
  end.

Lemma step_after_stop (l : Label) (s s' : State) :
  closed (done (h s)) = true -> step l s = Some s' ->
  closed (done (h s')) = true /\
  (attempts s' + dispatchBudget s' <= attempts s + dispatchBudget s)%nat.
Proof.
  intros Hd. unfold dispatchBudget. revert s'.
  step_cases; simpl;
    repeat match goal with
           | E : dispatcher _ = _ |- _ => rewrite E; clear E
           end;
    split; auto; try congruence; try lia.
Qed.

Lemma exec_after_stop (tr : list Label) :
  forall s s' : State,
  closed (done (h s)) = true -> exec tr s = Some s' ->
  closed (done (h s')) = true /\
  (attempts s' + dispatchBudget s' <= attempts s + dispatchBudget s)%nat.
Proof.
  induction tr as [|l tr IH]; simpl; intros s s' Hd E.
  - some_inv. auto.
  - destruct (step l s) as [s1|] eqn:Es; [|discriminate].
    destruct (step_after_stop l s s1 Hd Es) as (Hd1 & Hb1).
    destruct (IH s1 s' Hd1 E) as (Hd' & Hb'). split; [exact Hd'|lia].
Qed.

(** X2: the stop signal is looked at only between two reads.  Once [done]
    is closed, [processRTPPackets] dispatches at most one more packet, and
    only if it was inside [track.ReadRTP] at that moment; when it reaches
    its [select] it returns and the queue is closed. *)
Theorem X2_at_most_one_dispatch_after_stop
  (s : State) (later : list Label) (s' : State) :
  closed (done (h s)) = true ->
  exec later s = Some s' ->
  (attempts s' <= attempts s + dispatchBudget s)%nat /\
  (dispatcher s <> InReadRTP -> attempts s' = attempts s) /\
  (dispatcher s' = AtSelect -> panicked s' = false ->
   exists s1, step OuterSelect s' = Some s1 /\
              dispatcher s1 = Returned /\
              closed (processedChan (h s1)) = true /\
              attempts s1 = attempts s').
Proof.
  intros Hd E.
  destruct (exec_after_stop later s s' Hd E) as (Hd' & Hb).
  assert (Hmono : (attempts s <= attempts s')%nat).
  { clear - E. revert s E. induction later as [|l tr IH]; simpl; intros s E.
    - some_inv. lia.
    - destruct (step l s) as [s1|] eqn:Es; [|discriminate].
      specialize (IH s1 E).
      assert (attempts s <= attempts s1)%nat; [|lia].
      clear - Es. revert s1 Es. step_cases; simpl; lia. }
  split; [lia|]. split.
  - intros Hn. unfold dispatchBudget in Hb.
    destruct (dispatcher s); try congruence; lia.
  - intros Ha Hp. unfold step. rewrite Hp, Ha.
    eexists; split; [reflexivity|].
    unfold outerSelect, recv. rewrite Hd'.
    unfold processRTPPackets_return.
    destruct (buf (done (h s')));
      destruct (close (processedChan (h s'))) eqn:Ec; chan_facts; simpl; auto.
Qed.

(** X3: a writer that has returned touches nothing any more: whatever runs
    afterwards, the sink log, the batch, the drained sequence and
    [ticker.C] stay as they were. *)
Theorem X3_no_write_after_writer_returned
  (s : State) (later : list Label) (s' : State) :
  writer s = WriterReturned ->
  exec later s = Some s' ->
  writer s' = WriterReturned /\
  sinkLog s' = sinkLog s /\
  batch s' = batch s /\
  drained s' = drained s /\
  tickerC s' = tickerC s.
Proof.
  revert s. induction later as [|l tr IH]; simpl; intros s Hw E.
  - some_inv. auto.
  - destruct (step l s) as [s1|] eqn:Es; [|discriminate].
    assert (F : writer s1 = WriterReturned /\ sinkLog s1 = sinkLog s /\
                batch s1 = batch s /\ drained s1 = drained s /\
                tickerC s1 = tickerC s).
    { clear - Es Hw. revert s1 Es.
      step_cases; simpl; repeat split; auto; congruence. }
    destruct F as (F1 & F2 & F3 & F4 & F5).
    destruct (IH s1 F1 E) as (G1 & G2 & G3 & G4 & G5).
    repeat split; congruence.
Qed.

(** ** Why the loop ends *)

Record ReturnInv (s : State) : Prop := {
  r_cause : dispatcher s = Returned ->
            closed (done (h s)) = true \/ In ErrorReadingRTP (stdout s);
  r_error : In ErrorReadingRTP (stdout s) -> dispatcher s = Returned;
  r_done : buf (done (h s)) = []
}.

Lemma step_ReturnInv (l : Label) (s s' : State) :
  ReturnInv s -> step l s = Some s' -> ReturnInv s'.
Proof.
  intros [Rc Re Rd]. revert s'.
  step_cases; split; simpl in *; intros;
    repeat match goal with
           | X : In _ (_ ++ _) |- _ =>
               apply in_app_or in X; destruct X as [X|X]
           | X : In _ [_] |- _ => destruct X as [X|[]]
           end;
    try discriminate; try tauto; try congruence;
    try (right; apply in_or_app; simpl; tauto);
    try (destruct Rc as [Rc|Rc]; [assumption| |];
         solve [ left; congruence
               | right; apply in_or_app; tauto ]);
    try (specialize (Re ltac:(assumption)); congruence).
Qed.

Lemma exec_ReturnInv (tr : list Label) :
  forall s s' : State, ReturnInv s -> exec tr s = Some s' -> ReturnInv s'.
Proof.
  induction tr as [|l tr IH]; simpl; intros s s' R E.
  - some_inv. exact R.
  - destruct (step l s) as [s1|] eqn:Es; [|discriminate].
    apply (IH s1); [eapply step_ReturnInv; eassumption | exact E].
Qed.

(** X9: [processRTPPackets] returns only because [done] was closed or
    because [track.ReadRTP] failed; and once the read error has been
    printed it has returned and the queue is closed. *)
Theorem X9_loop_ends_on_stop_or_read_error
  (n : nat) (stdin : W) (t0 : Time) (schedule : list Label) (s : State) :
  exec schedule (start n stdin t0) = Some s ->
  (dispatcher s = Returned ->
   closed (done (h s)) = true \/ In ErrorReadingRTP (stdout s)) /\
  (In ErrorReadingRTP (stdout s) ->
   dispatcher s = Returned /\ closed (processedChan (h s)) = true).
Proof.
  intros E.
  assert (R : ReturnInv s).
  { apply (exec_ReturnInv schedule (start n stdin t0)); [|exact E].
    split; simpl; [discriminate | intros [] | reflexivity]. }
  destruct R as [Rc Re _]. split; [exact Rc|].
  intros Hin. specialize (Re Hin). split; [exact Re|].
  destruct (reachable_Inv _ _ _ _ _ E) as [_ _ [_ _ Qc _] _ _ _].
  apply Qc. exact Re.
Qed.

(** ** What the writer does with drained payloads, failures included *)

(** Whatever the sink answers: the drained sequence ends with the batch,
    all that came before the batch has reached the sink, and every write
    that was tried was of a drained payload. *)
Record WriterSafe (s : State) : Prop := {
  ws_split : exists pre, drained s = pre ++ batch s /\
                         incl pre (delivered (sinkLog s));
  ws_own : incl (map fst (sinkLog s)) (drained s)
}.

Lemma flushBatch_WriterSafe (s : State) :
  WriterSafe s -> WriterSafe (flushBatch s).
Proof.
  intros [(pre & D & P) O].
  pose proof (flushBatch_frame s) as F; simpl in F.
  destruct F as (_&_&_&_&_&_&_&_&_&_&_&_&_&_&_&_&_&Fd).
  assert (Hb : incl (batch s) (drained s)).
  { rewrite D. apply incl_appr, incl_refl. }
  destruct (writesSucceed (ffmpegStdin (h s)) (batch s)) eqn:Hw.
  - destruct (flushBatch_success s Hw) as (L & B & _).
    split.
    + exists (pre ++ batch s). rewrite B, app_nil_r, L, Fd, delivered_app,
        delivered_ok. split; [exact D|].
      apply incl_app; [apply incl_appl; exact P | apply incl_appr, incl_refl].
    + rewrite L, Fd, map_app. apply incl_app; [exact O|].
      rewrite map_map. simpl. rewrite map_id. exact Hb.
  - destruct (flushBatch_failure s Hw) as (p0 & q & post & Eb & L & B & _).
    split.
    + exists pre. rewrite B, L, Fd, delivered_app. split; [exact D|].
      apply incl_appl. exact P.
    + rewrite L, Fd, !map_app. apply incl_app; [exact O|].
      rewrite map_map. simpl. rewrite map_id.
      intros x Hx. apply Hb. rewrite Eb.
      apply in_app_or in Hx. apply in_or_app.
      destruct Hx as [Hx|[Hx|[]]]; [left; exact Hx | right; left; exact Hx].
Qed.

Lemma step_WriterSafe (l : Label) (s s' : State) :
  WriterSafe s -> step l s = Some s' -> WriterSafe s'.
Proof.
  intros I E. destruct (foreign l) eqn:Fl.
  - destruct (step_foreign l s s' Fl E) as (Es & Ed & Eb & _).
    destruct I as [(pre & D & P) O].
    split; [exists pre|]; rewrite ?Es, ?Ed, ?Eb; auto.
  - destruct l; try discriminate; clear Fl; unfold step in E;
      destruct (panicked s); try discriminate.
    + (* WriterChan *)
      destruct (writer s); [|discriminate]. unfold writerChan in E.
      destruct (recv (processedChan (h s))) as [p c| |] eqn:Er;
        [| |discriminate].
      * unfold onPayload in E. set (s1 := set_batch _ _) in E.
        assert (I1 : WriterSafe s1).
        { destruct I as [(pre & D & P) O]. subst s1. split; simpl.
          - exists pre. rewrite D, <- app_assoc. auto.
          - intros x Hx. apply in_or_app. left. apply O. exact Hx. }
        destruct (batchSize <=? length (batch s1))%nat;
          inversion E; subst s'; clear E;
          [apply flushBatch_WriterSafe|]; exact I1.
      * inversion E; subst s'; clear E. unfold onClosed.
        destruct (flushBatch_WriterSafe s I) as [S1 S2].
        split; simpl; assumption.
    + (* WriterTick *)
      destruct (writer s); [|discriminate]. unfold writerTick in E.
      destruct (recv (tickerC s)) as [t c| |] eqn:Er; try discriminate.
      inversion E; subst s'; clear E. apply flushBatch_WriterSafe.
      destruct I as [S1 S2]. split; simpl; assumption.
    + (* Advance *)
      unfold advance in E. destruct (d <? 0); [discriminate|].
      inversion E; subst s'; clear E.
      destruct I as [S1 S2]. unfold fireTicker; simpl.
      destruct (writer s); [|split; simpl; assumption].
      destruct (tickerWhen s <=? now s + d); split; simpl; assumption.
Qed.

Lemma exec_WriterSafe (tr : list Label) :
  forall s s' : State, WriterSafe s -> exec tr s = Some s' -> WriterSafe s'.
Proof.
  induction tr as [|l tr IH]; simpl; intros s s' I E.
  - some_inv. exact I.
  - destruct (step l s) as [s1|] eqn:Es; [|discriminate].
    apply (IH s1); [eapply step_WriterSafe; eassumption | exact E].
Qed.

(** X4: whether or not writes fail, the writer in its loop loses nothing
    and invents nothing.  Every payload it has drained from the queue has
    reached the sink or is still in the batch; every write it has tried,
    successful or not, was of a payload drained from the queue; and what
    it drained is what the queue accepted, less what the queue still
    holds. *)
Theorem X4_writer_neither_loses_nor_invents
  (n : nat) (stdin : W) (t0 : Time) (schedule : list Label) (s : State) :
  exec schedule (start n stdin t0) = Some s ->
  (forall p, In p (drained s) ->
             In p (delivered (sinkLog s)) \/ In p (batch s)) /\
  (forall p b, In (p, b) (sinkLog s) -> In p (drained s)) /\
  (forall p, In p (drained s) -> In p (accepted s)).
Proof.
  intros E.
  assert (S : WriterSafe s).
  { apply (exec_WriterSafe schedule (start n stdin t0)); [|exact E].
    split; simpl; [exists []; split; [reflexivity | intros x []] | intros x []]. }
  destruct S as [(pre & D & P) O].
  destruct (reachable_Inv _ _ _ _ _ E) as [_ _ [_ Qf _ _] _ _ _].
  split; [|split].
  - intros p Hp. rewrite D in Hp. apply in_app_or in Hp.
    destruct Hp as [Hp|Hp]; [left; apply P; exact Hp | right; exact Hp].
  - intros p b Hin. apply O. apply (in_map fst) in Hin. exact Hin.
  - intros p Hp. rewrite Qf. apply in_or_app. left. exact Hp.
Qed.

(** ** A sink that never accepts a write *)

Lemma dead_flush (s : State) :
  (forall w p, snd (Write w p) = false) ->
  batch (flushBatch s) = batch s /\
  delivered (sinkLog (flushBatch s)) = delivered (sinkLog s).
Proof.
  intros Hdead. unfold flushBatch.
  destruct (batch s) as [|p ps] eqn:Eb; [rewrite Eb; auto|].
  simpl. specialize (Hdead (ffmpegStdin (h s)) p).
  destruct (Write (ffmpegStdin (h s)) p) as [w' b]. simpl in Hdead. subst b.
  simpl. rewrite Eb, delivered_app. unfold delivered at 2; simpl.
  rewrite app_nil_r. auto.
Qed.

Lemma step_dead_sink (l : Label) (s s' : State) :
  (forall w p, snd (Write w p) = false) ->
  batch s = drained s /\ delivered (sinkLog s) = [] ->
  step l s = Some s' ->
  batch s' = drained s' /\ delivered (sinkLog s') = [].
Proof.
  intros Hdead [Hb Hd] E. destruct (foreign l) eqn:Fl.
  - destruct (step_foreign l s s' Fl E) as (Es & Ed & Eb & _).
    rewrite Es, Ed, Eb. auto.
  - destruct l; try discriminate; clear Fl; unfold step in E;
      destruct (panicked s); try discriminate.
    + destruct (writer s); [|discriminate]. unfold writerChan in E.
      destruct (recv (processedChan (h s))) as [p c| |] eqn:Er;
        [| |discriminate].
      * unfold onPayload in E. set (s1 := set_batch _ _) in E.
        assert (I1 : batch s1 = drained s1 /\ delivered (sinkLog s1) = []).
        { subst s1; simpl. rewrite Hb. auto. }
        destruct (dead_flush s1 Hdead) as (B & D).
        pose proof (flushBatch_frame s1) as F; simpl in F.
        destruct F as (_&_&_&_&_&_&_&_&_&_&_&_&_&_&_&_&_&Fd).
        destruct (batchSize <=? length (batch s1))%nat;
          inversion E; subst s'; clear E; [|exact I1].
        rewrite B, D, Fd. exact I1.
      * inversion E; subst s'; clear E. unfold onClosed; simpl.
        destruct (dead_flush s Hdead) as (B & D).
        pose proof (flushBatch_frame s) as F; simpl in F.
        destruct F as (_&_&_&_&_&_&_&_&_&_&_&_&_&_&_&_&_&Fd).
        rewrite B, D, Fd. auto.
    + destruct (writer s); [|discriminate]. unfold writerTick in E.
      destruct (recv (tickerC s)) as [t c| |] eqn:Er; try discriminate.
      inversion E; subst s'; clear E.
      destruct (dead_flush (set_tickerC c s) Hdead) as (B & D).
      pose proof (flushBatch_frame (set_tickerC c s)) as F; simpl in F.
      destruct F as (_&_&_&_&_&_&_&_&_&_&_&_&_&_&_&_&_&Fd).
      rewrite B, D, Fd. simpl. auto.
    + unfold advance in E. destruct (d <? 0); [discriminate|].
      inversion E; subst s'; clear E. unfold fireTicker; simpl.
      destruct (writer s); [|simpl; auto].
      destruct (tickerWhen s <=? now s + d); simpl; auto.
Qed.

(** X5: against a sink on which every write fails, the writer keeps
    everything it drains: under every schedule nothing reaches the sink and
    the batch is the whole drained sequence, so it grows with every payload
    taken from the queue, past [batchSize]. *)
Theorem X5_dead_sink_batch_grows
  (n : nat) (stdin : W) (t0 : Time) (schedule : list Label) (s : State) :
  (forall w p, snd (Write w p) = false) ->
  exec schedule (start n stdin t0) = Some s ->
  delivered (sinkLog s) = [] /\
  batch s = drained s /\
  length (batch s) = length (drained s).
Proof.
  intros Hdead E.
  assert (I : batch s = drained s /\ delivered (sinkLog s) = []).
  { revert E. generalize (conj eq_refl eq_refl :
      batch (start n stdin t0) = drained (start n stdin t0) /\
      delivered (sinkLog (start n stdin t0)) = []).
    generalize (start n stdin t0).
    induction schedule as [|l tr IH]; simpl; intros s0 I0 E.
    - some_inv. exact I0.
    - destruct (step l s0) as [s1|] eqn:Es; [|discriminate].
      apply (IH s1); [eapply step_dead_sink; eassumption | exact E]. }
  destruct I as (B & D). rewrite B. auto.
Qed.

(** ** The packet counter *)

Definition isIncrementing (pc : WorkerPc) : bool :=
  match pc with
  | IncLoad | IncStore _ => true
  | _ => false
  end.

(** Workers whose payload is in the queue and not yet in the counter. *)
Definition incrementing (s : State) : nat :=
  length (filter isIncrementing (goroutines s)).

Lemma In_replace {A : Type} (i : nat) (x y : A) (l : list A) :
  In x (replace i y l) -> x = y \/ In x l.
Proof.
  revert i; induction l as [|z l IH]; intros [|i]; simpl; try tauto.
  - intros [E|Hin]; auto.
  - intros [E|Hin]; auto. destruct (IH i Hin); auto.
Qed.

Lemma In_remove {A : Type} (i : nat) (x : A) (l : list A) :
  In x (remove i l) -> In x l.
Proof.
  revert i; induction l as [|z l IH]; intros [|i]; simpl; try tauto.
  intros [E|Hin]; auto. right. eapply IH; eauto.
Qed.

(** The counter never runs ahead of the handoffs: it is at most the number
    of accepted payloads whose worker has finished its increment, and so is
    every value a worker has loaded and every count that was printed. *)
Record CounterInv (s : State) : Prop := {
  c_low : 0 <= packetCounter s;
  c_high : packetCounter s + Z.of_nat (incrementing s)
           <= Z.of_nat (length (accepted s));
  c_tmp : forall tmp, In (IncStore tmp) (goroutines s) ->
          0 <= tmp /\
          tmp + Z.of_nat (incrementing s) <= Z.of_nat (length (accepted s));
  c_out : forall k, In (ProcessedPerSec k) (stdout s) ->
          0 <= k <= Z.of_nat (length (accepted s))
}.

Lemma uint64_le (z : Z) : 0 <= z -> 0 <= uint64 z <= z.
Proof.
  intros Hz. unfold uint64. split.
  - apply Z.mod_pos_bound. reflexivity.
  - apply Z.mod_le; [exact Hz | reflexivity].
Qed.

Lemma worker_CounterInv (i : nat) (pc : WorkerPc) (s s' : State) :
  CounterInv s -> nth_error (goroutines s) i = Some pc ->
  workerStep i pc s = Some s' -> CounterInv s'.
Proof.
  intros [Cl Ch Ct Co] En.
  pose proof (nth_error_In _ _ En) as Hin.
  assert (Rep : forall pc' (s1 : State),
            goroutines s1 = goroutines s ->
            forall tmp, In (IncStore tmp) (goroutines (goto i pc' s1)) ->
                        IncStore tmp = pc' \/ In (IncStore tmp) (goroutines s)).
  { intros pc' s1 Eg tmp Hx. unfold goto in Hx; simpl in Hx.
    rewrite Eg in Hx. apply In_replace in Hx. exact Hx. }
  assert (Cnt : forall pc' (s1 : State),
            goroutines s1 = goroutines s ->
            (incrementing (goto i pc' s1) + (if isIncrementing pc then 1 else 0)
             = incrementing s + (if isIncrementing pc' then 1 else 0))%nat).
  { intros pc' s1 Eg. unfold incrementing, goto; simpl. rewrite Eg.
    apply count_replace. exact En. }
  assert (Rel : forall s1, release i s = Some s1 ->
            packetCounter s1 = packetCounter s /\ accepted s1 = accepted s /\
            stdout s1 = stdout s /\
            (forall x, In x (goroutines s1) -> In x (goroutines s)) /\
            (incrementing s1 + (if isIncrementing pc then 1 else 0)
             = incrementing s)%nat).
  { intros s1 Er. unfold release in Er.
    destruct (recv (workers s)) as [t c| |]; try discriminate.
    inversion Er; subst s1; clear Er. simpl. repeat split; auto.
    - intros x Hx. eapply In_remove; eauto.
    - unfold incrementing; simpl. apply count_remove. exact En. }
  destruct pc; simpl.
  - (* Offer *)
    destruct (send (processedChan (h s)) payload) eqn:Es.
    + intros E; some_inv.
      set (pc' := if metricsEnabled _ then IncLoad else Release).
      set (s1 := set_accepted _ _).
      specialize (Cnt pc' s1 eq_refl). specialize (Rep pc' s1 eq_refl).
      simpl in Cnt.
      assert (Hn : (incrementing (goto i pc' s1) <= S (incrementing s))%nat).
      { destruct (isIncrementing pc'); lia. }
      split; simpl; rewrite ?length_app; simpl.
      * exact Cl.
      * lia.
      * intros tmp Hx. destruct (Rep tmp Hx) as [Hx'|Hx'].
        -- subst pc'. destruct (metricsEnabled _); discriminate.
        -- destruct (Ct tmp Hx'). lia.
      * intros k Hk. specialize (Co k Hk). lia.
    + intros E; some_inv.
      set (s1 := if metricsEnabled (h s) then _ else s).
      assert (Eg : goroutines s1 = goroutines s /\
                   packetCounter s1 = packetCounter s /\
                   accepted s1 = accepted s /\
                   (forall k, In (ProcessedPerSec k) (stdout s1) ->
                              In (ProcessedPerSec k) (stdout s))).
      { subst s1. destruct (metricsEnabled (h s)); simpl; repeat split; auto.
        intros k Hk. apply in_app_or in Hk.
        destruct Hk as [Hk|[Hk|[]]]; [exact Hk | discriminate]. }
      destruct Eg as (Eg & Ep & Ea & Eo).
      specialize (Cnt Release s1 Eg). specialize (Rep Release s1 Eg).
      simpl in Cnt.
      split; simpl; rewrite ?Ep, ?Ea.
      * exact Cl.
      * lia.
      * intros tmp Hx. destruct (Rep tmp Hx) as [Hx'|Hx']; [discriminate|].
        destruct (Ct tmp Hx'). lia.
      * intros k Hk. apply Co, Eo. exact Hk.
    + destruct (release i s) as [s1|] eqn:Er; intros E; some_inv.
      * destruct (Rel s1 eq_refl) as (Ep & Ea & Eo & Eg & Ec). simpl in Ec.
        assert (Ei : incrementing (set_panicked true s1) = incrementing s1)
          by reflexivity.
        split; simpl; rewrite ?Ei, ?Ep, ?Ea, ?Eo; auto; try lia.
        intros tmp Hx. destruct (Ct tmp (Eg _ Hx)). lia.
      * split; simpl; auto.
  - (* IncLoad *)
    intros E; some_inv.
    specialize (Cnt (IncStore (packetCounter s)) s eq_refl).
    specialize (Rep (IncStore (packetCounter s)) s eq_refl). simpl in Cnt.
    split; simpl; auto; try lia.
    intros tmp Hx. destruct (Rep tmp Hx) as [Hx'|Hx'].
    + inversion Hx'; subst. lia.
    + destruct (Ct tmp Hx'). lia.
  - (* IncStore *)
    intros E; some_inv.
    destruct (Ct tmp Hin) as (T0 & T1).
    pose proof (uint64_le (tmp + 1) ltac:(lia)) as U.
    set (s1 := set_packetCounter _ s).
    specialize (Cnt CheckSince s1 eq_refl).
    specialize (Rep CheckSince s1 eq_refl). simpl in Cnt.
    split; simpl; try lia.
    + intros tmp' Hx. destruct (Rep tmp' Hx) as [Hx'|Hx']; [discriminate|].
      destruct (Ct tmp' Hx'). lia.
    + exact Co.
  - (* CheckSince *)
    intros E; some_inv.
    set (pc' := if _ <=? _ then PrintRate else Release).
    assert (Hpc : isIncrementing pc' = false)
      by (subst pc'; destruct (_ <=? _); reflexivity).
    specialize (Cnt pc' s eq_refl). specialize (Rep pc' s eq_refl).
    simpl in Cnt. rewrite Hpc in Cnt.
    split; simpl; auto; try lia.
    intros tmp Hx. destruct (Rep tmp Hx) as [Hx'|Hx'].
    + subst pc'. destruct (_ <=? _); discriminate.
    + destruct (Ct tmp Hx'). lia.
  - (* PrintRate *)
    intros E; some_inv.
    set (s1 := println _ s).
    specialize (Cnt ResetCounter s1 eq_refl).
    specialize (Rep ResetCounter s1 eq_refl). simpl in Cnt.
    split; simpl; auto; try lia.
    + intros tmp Hx. destruct (Rep tmp Hx) as [Hx'|Hx']; [discriminate|].
      destruct (Ct tmp Hx'). lia.
    + intros k Hk. apply in_app_or in Hk.
      destruct Hk as [Hk|[Hk|[]]]; [apply Co; exact Hk|].
      inversion Hk; subst. lia.
  - (* ResetCounter *)
    intros E; some_inv.
    set (s1 := set_packetCounter 0 s).
    specialize (Cnt StampTime s1 eq_refl).
    specialize (Rep StampTime s1 eq_refl). simpl in Cnt.
    split; simpl; auto; try lia.
    intros tmp Hx. destruct (Rep tmp Hx) as [Hx'|Hx']; [discriminate|].
    destruct (Ct tmp Hx'). lia.
  - (* StampTime *)
    intros E; some_inv.
    set (s1 := set_lastMetricTime _ s).
    specialize (Cnt Release s1 eq_refl).
    specialize (Rep Release s1 eq_refl). simpl in Cnt.
    split; simpl; auto; try lia.
    intros tmp Hx. destruct (Rep tmp Hx) as [Hx'|Hx']; [discriminate|].
    destruct (Ct tmp Hx'). lia.
  - (* Release *)
    intros Er. destruct (Rel s' Er) as (Ep & Ea & Eo & Eg & Ec). simpl in Ec.
    split; rewrite ?Ep, ?Ea, ?Eo; auto; try lia.
    intros tmp Hx. destruct (Ct tmp (Eg _ Hx)). lia.
Qed.

Lemma step_CounterInv (l : Label) (s s' : State) :
  CounterInv s -> step l s = Some s' -> CounterInv s'.
Proof.
  intros I.
  destruct l;
    try solve [ destruct I as [Cl Ch Ct Co]; unfold incrementing in *;
                revert s'; step_cases; split; simpl in *;
                rewrite ?filter_app, ?app_nil_r in *; simpl in *;
                rewrite ?app_nil_r in *; auto; intros;
                repeat match goal with
                       | X : In _ (_ ++ _) |- _ =>
                           apply in_app_or in X; destruct X as [X|X]
                       | X : In _ [_] |- _ => destruct X as [X|[]]
                       end;
                try discriminate; auto ].
  - (* ReadPacket *)
    destruct I as [Cl Ch Ct Co].
    unfold step. destruct (panicked s); [discriminate|].
    destruct (dispatcher s); try discriminate. intros E; some_inv.
    unfold readPacket, dispatch; simpl.
    destruct (send (workers s) tt) as [c| |] eqn:Es.
    + assert (Ei : incrementing
                (set_dispatcher AtSelect
                   (set_goroutines (goroutines s ++ [Offer packet])
                      (set_workers c (set_attempts (S (attempts s)) s))))
              = incrementing s).
      { unfold incrementing; simpl. rewrite count_snoc. simpl. lia. }
      split; simpl; rewrite ?Ei; auto.
      intros tmp Hx. apply in_app_or in Hx.
      destruct Hx as [Hx|[Hx|[]]]; [apply Ct; exact Hx | discriminate].
    + destruct (metricsEnabled (h s)); split; simpl; auto.
      intros k Hk. apply in_app_or in Hk.
      destruct Hk as [Hk|[Hk|[]]]; [apply Co; exact Hk | discriminate].
    + split; simpl; auto.
  - (* Worker *)
    unfold step. destruct (panicked s); [discriminate|].
    destruct (nth_error (goroutines s) i) as [pc|] eqn:En; [|discriminate].
    apply worker_CounterInv; assumption.
Qed.

Lemma exec_CounterInv (tr : list Label) :
  forall s s' : State, CounterInv s -> exec tr s = Some s' -> CounterInv s'.
Proof.
  induction tr as [|l tr IH]; simpl; intros s s' I E.
  - some_inv. exact I.
  - destruct (step l s) as [s1|] eqn:Es; [|discriminate].
    apply (IH s1); [eapply step_CounterInv; eassumption | exact E].
Qed.

(** X6: although the increments of [packetCounter] are not synchronised,
    the counter never overstates: under every schedule it lies between 0
    and the number of payloads the queue has accepted, and so does every
    count printed by a report. *)
Theorem X6_counter_never_overstates
  (n : nat) (stdin : W) (t0 : Time) (schedule : list Label) (s : State) :
  exec schedule (start n stdin t0) = Some s ->
  0 <= packetCounter s <= Z.of_nat (length (accepted s)) /\
  (forall k, In (ProcessedPerSec k) (stdout s) ->
             0 <= k <= Z.of_nat (length (accepted s))).
Proof.
  intros E.
  assert (I : CounterInv s).
  { apply (exec_CounterInv schedule (start n stdin t0)); [|exact E].
    split; simpl; try lia; intros ? []. }
  destruct I as [Cl Ch _ Co]. split; [lia | exact Co].
Qed.

(** ** A pool of one worker *)

Definition lineCount (l : Line) : Z :=
  match l with
  | ProcessedPerSec k => k
  | _ => 0
  end.

Lemma reported_println (l : Line) (s : State) :
  reported (println l s) = reported s + lineCount l.
Proof.
  unfold reported, println; simpl.
  induction (stdout s) as [|x out IH]; simpl.
  - destruct l; simpl; lia.
  - rewrite IH. destruct x; lia.
Qed.

(** Steps other than a dispatch or a worker's leave the metrics alone. *)
Definition metricsStep (l : Label) : bool :=
  match l with
  | ReadPacket _ | Worker _ => true
  | _ => false
  end.

Lemma step_metrics_frame (l : Label) (s s' : State) :
  metricsStep l = false -> step l s = Some s' ->
  goroutines s' = goroutines s /\ packetCounter s' = packetCounter s /\
  accepted s' = accepted s /\ reported s' = reported s.
Proof.
  destruct l; simpl; try discriminate; intros _; revert s';
    step_cases; simpl; repeat split; auto;
    try solve [ unfold reported; simpl; rewrite ?fold_right_app; simpl;
                reflexivity ].
Qed.

(** With a single worker the counter is exact at each point of the worker's
    code, as long as fewer than 2^64 payloads were accepted. *)
Definition soloShape (s : State) : Prop :=
  let A := Z.of_nat (length (accepted s)) in
  let R := reported s in
  let C := packetCounter s in
  match goroutines s with
  | [] => R + C = A
  | [pc] =>
      match pc with
      | Offer _ | CheckSince | PrintRate | Release => R + C = A
      | IncLoad => R + C + 1 = A
      | IncStore tmp => tmp = C /\ R + C + 1 = A
      | ResetCounter => R = A
      | StampTime => C = 0 /\ R = A
      end
  | _ => False
  end.

Definition SoloInv (s : State) : Prop :=
  0 <= reported s /\ 0 <= packetCounter s /\
  (Z.of_nat (length (accepted s)) < 2 ^ 64 -> soloShape s).

Lemma step_SoloInv (l : Label) (s s' : State) :
  Config 1 s -> SlotsInv s -> SoloInv s ->
  step l s = Some s' -> SoloInv s'.
Proof.
  intros [Hn Hm _] [Sc So Sh Sb] (R0 & C0 & I) E.
  destruct (metricsStep l) eqn:Ml.
  2: { destruct (step_metrics_frame l s s' Ml E) as (Eg & Ep & Ea & Er).
       unfold SoloInv, soloShape in *. rewrite Eg, Ep, Ea, Er. auto. }
  destruct l; try discriminate; clear Ml; unfold step in E;
    destruct (panicked s); try discriminate.
  - (* ReadPacket *)
    destruct (dispatcher s); try discriminate. some_inv.
    unfold readPacket, dispatch; simpl.
    destruct (send (workers s) tt) as [c| |] eqn:Es; chan_facts.
    + assert (Eg : goroutines s = []).
      { destruct (goroutines s); [reflexivity|]. simpl in *. lia. }
      unfold SoloInv, soloShape in *; simpl. rewrite Eg in *. simpl.
      unfold reported in *; simpl. auto.
    + destruct (metricsEnabled (h s)); unfold SoloInv, soloShape in *; simpl;
        rewrite ?reported_println; simpl; auto.
      change (reported (set_dispatcher AtSelect
                (println WorkerPoolFull (set_attempts (S (attempts s)) s))))
        with (reported (println WorkerPoolFull s)).
      rewrite reported_println. simpl. rewrite Z.add_0_r. auto.
    + congruence.
  - (* Worker *)
    destruct (nth_error (goroutines s) i) as [pc|] eqn:En; [|discriminate].
    assert (Eg : goroutines s = [pc] /\ i = 0%nat).
    { destruct (goroutines s) as [|x [|y rest]]; simpl in *.
      - destruct i; discriminate.
      - destruct i as [|[|i]]; simpl in En; try discriminate.
        inversion En; auto.
      - lia. }
    destruct Eg as (Eg & Ei). subst i. clear En.
    unfold SoloInv, soloShape in I. rewrite Eg in I.
    assert (Gt : forall pc' (s1 : State), goroutines s1 = goroutines s ->
                 goroutines (goto 0 pc' s1) = [pc']).
    { intros pc' s1 E1. unfold goto; simpl. rewrite E1, Eg. reflexivity. }
    assert (Rl : forall s1, release 0 s = Some s1 ->
                 goroutines s1 = [] /\ packetCounter s1 = packetCounter s /\
                 accepted s1 = accepted s /\ reported s1 = reported s).
    { intros s1 Er. unfold release in Er.
      destruct (recv (workers s)) as [t c| |]; try discriminate.
      inversion Er; subst s1. simpl. rewrite Eg. simpl. auto. }
    destruct pc; simpl in E.
    + (* Offer *)
      destruct (send (processedChan (h s)) payload) eqn:Es.
      * some_inv. rewrite Hm.
        set (s1 := set_accepted _ _).
        unfold SoloInv, soloShape. rewrite (Gt IncLoad s1 eq_refl).
        change (reported (goto 0 IncLoad s1)) with (reported s).
        simpl. rewrite length_app, Nat2Z.inj_add. simpl.
        split; [exact R0|]. split; [exact C0|]. intros Hlt.
        specialize (I ltac:(lia)). lia.
      * some_inv. rewrite Hm.
        unfold SoloInv, soloShape.
        rewrite (Gt Release (println PacketDroppedBufferFull s) eq_refl).
        change (reported (goto 0 Release (println PacketDroppedBufferFull s)))
          with (reported (println PacketDroppedBufferFull s)).
        rewrite reported_println. simpl. rewrite Z.add_0_r. auto.
      * destruct (release 0 s) as [s1|] eqn:Er; some_inv.
        -- destruct (Rl s1 eq_refl) as (E1 & E2 & E3 & E4).
           unfold SoloInv, soloShape.
           change (reported (set_panicked true s1)) with (reported s1).
           simpl. rewrite E1, E2, E3, E4. auto.
        -- unfold SoloInv, soloShape.
           change (reported (set_panicked true s)) with (reported s).
           simpl. rewrite Eg. auto.
    + (* IncLoad *)
      some_inv. unfold SoloInv, soloShape.
      rewrite (Gt (IncStore (packetCounter s)) s eq_refl).
      change (reported (goto 0 (IncStore (packetCounter s)) s))
        with (reported s). simpl.
      split; [exact R0|]. split; [exact C0|]. intros Hlt.
      specialize (I Hlt). auto.
    + (* IncStore *)
      some_inv. set (s1 := set_packetCounter _ s).
      unfold SoloInv, soloShape. rewrite (Gt CheckSince s1 eq_refl).
      change (reported (goto 0 CheckSince s1)) with (reported s). simpl.
      split; [exact R0|].
      split; [apply Z.mod_pos_bound; reflexivity|]. intros Hlt.
      destruct (I Hlt) as (Et & Ea). subst tmp.
      unfold uint64. rewrite Z.mod_small; lia.
    + (* CheckSince *)
      some_inv. unfold SoloInv, soloShape.
      set (pc' := if _ <=? _ then PrintRate else Release).
      rewrite (Gt pc' s eq_refl).
      change (reported (goto 0 pc' s)) with (reported s). simpl.
      split; [exact R0|]. split; [exact C0|]. intros Hlt.
      specialize (I Hlt). subst pc'. destruct (_ <=? _); exact I.
    + (* PrintRate *)
      some_inv. set (s1 := println _ s).
      unfold SoloInv, soloShape. rewrite (Gt ResetCounter s1 eq_refl).
      change (reported (goto 0 ResetCounter s1)) with (reported s1).
      subst s1. rewrite reported_println. simpl.
      split; [lia|]. split; [exact C0|]. intros Hlt.
      specialize (I Hlt). lia.
    + (* ResetCounter *)
      some_inv. set (s1 := set_packetCounter 0 s).
      unfold SoloInv, soloShape. rewrite (Gt StampTime s1 eq_refl).
      change (reported (goto 0 StampTime s1)) with (reported s). simpl.
      split; [exact R0|]. split; [lia|]. intros Hlt.
      specialize (I Hlt). auto.
    + (* StampTime *)
      some_inv. set (s1 := set_lastMetricTime _ s).
      unfold SoloInv, soloShape. rewrite (Gt Release s1 eq_refl).
      change (reported (goto 0 Release s1)) with (reported s). simpl.
      split; [exact R0|]. split; [exact C0|]. intros Hlt.
      destruct (I Hlt) as (Ec & Er). lia.
    + (* Release *)
      destruct (Rl s' E) as (E1 & E2 & E3 & E4).
      unfold SoloInv, soloShape. rewrite E1, E2, E3, E4. auto.
Qed.

Lemma exec_SoloInv (tr : list Label) :
  forall s s' : State,
  Inv 1 s -> SoloInv s -> exec tr s = Some s' -> SoloInv s'.
Proof.
  induction tr as [|l tr IH]; simpl; intros s s' I J E.
  - some_inv. exact J.
  - destruct (step l s) as [s1|] eqn:Es; [|discriminate].
    apply (IH s1); [eapply step_Inv; eassumption | | exact E].
    destruct I as [C S _ _ _ _]. eapply step_SoloInv; eassumption.
Qed.

(** X7: with a pool of one worker no increment can be lost.  When no
    transform is in flight and fewer than 2^64 payloads have been accepted,
    the counts reported so far plus [packetCounter] are exactly the
    payloads the queue accepted, so that, unless the process has panicked,
    processed plus dropped equals the dispatch attempts. *)
Theorem X7_single_worker_counts_exactly
  (stdin : W) (t0 : Time) (schedule : list Label) (s : State) :
  exec schedule (start 1 stdin t0) = Some s ->
  Z.of_nat (length (accepted s)) < 2 ^ 64 ->
  inFlight s = 0%nat ->
  reported s + packetCounter s = Z.of_nat (length (accepted s)) /\
  (panicked s = false ->
   dropAccounting (fun s => reported s + packetCounter s) s).
Proof.
  intros E Hlt Hq.
  pose proof (reachable_Inv _ _ _ _ _ E) as I.
  assert (J : SoloInv s).
  { apply (exec_SoloInv schedule (start 1 stdin t0)); [apply Inv_start| |exact E].
    unfold SoloInv, soloShape, reported; simpl. repeat split; lia. }
  destruct J as (_ & _ & J). specialize (J Hlt).
  unfold soloShape in J. unfold inFlight in Hq.
  destruct (goroutines s) eqn:Eg; [|discriminate].
  split; [exact J|].
  intros Hp. destruct I as [_ _ _ A _ _]. specialize (A Hp).
  unfold dropAccounting, pendingOffers in *. rewrite Eg in A. simpl in A.
  rewrite J, A. lia.
Qed.

(** ** Arrival order *)

(** The payloads a schedule reads from the track, in order. *)
Definition arrivals (schedule : list Label) : list Payload :=
  flat_map (fun l => match l with ReadPacket p => [p] | _ => [] end) schedule.

(** The payloads of the workers that have not yet made their offer. *)
Definition offered (gs : list WorkerPc) : list Payload :=
  flat_map (fun pc => match pc with Offer p => [p] | _ => [] end) gs.

Inductive Subseq {A : Type} : list A -> list A -> Prop :=
| Subseq_nil : Subseq [] []
| Subseq_skip (x : A) (l1 l2 : list A) : Subseq l1 l2 -> Subseq l1 (x :: l2)
| Subseq_take (x : A) (l1 l2 : list A) :
    Subseq l1 l2 -> Subseq (x :: l1) (x :: l2).

Lemma Subseq_refl {A : Type} (l : list A) : Subseq l l.
Proof.
  induction l; [apply Subseq_nil | apply Subseq_take; assumption].
Qed.

Lemma Subseq_nil_l {A : Type} (l : list A) : Subseq [] l.
Proof.
  induction l; constructor; auto.
Qed.

Lemma Subseq_app {A : Type} (a b c d : list A) :
  Subseq a b -> Subseq c d -> Subseq (a ++ c) (b ++ d).
Proof.
  induction 1; simpl; intros Hc;
    [exact Hc | apply Subseq_skip; auto | apply Subseq_take; auto].
Qed.

Lemma Subseq_app_l {A : Type} (a b c : list A) :
  Subseq (a ++ b) c -> Subseq a c.
Proof.
  intros Hs. remember (a ++ b) as ab eqn:E. revert a b E.
  induction Hs as [|x l1 l2 Hs IH|x l1 l2 Hs IH]; intros a b E.
  - symmetry in E. apply app_eq_nil in E. destruct E; subst. apply Subseq_nil.
  - apply Subseq_skip. eapply IH; eassumption.
  - destruct a as [|z a]; [apply Subseq_nil_l|].
    simpl in E. inversion E; subst. apply Subseq_take. eapply IH; reflexivity.
Qed.

Definition Ordered (arr : list Payload) (s : State) : Prop :=
  Subseq (accepted s ++ offered (goroutines s)) arr.

Lemma step_Ordered (arr : list Payload) (l : Label) (s s' : State) :
  SlotsInv s -> workerCount (h s) = 1%nat -> Ordered arr s ->
  step l s = Some s' -> Ordered (arr ++ arrivals [l]) s'.
Proof.
  intros [Sc So Sh Sb] Hn O E. unfold Ordered in *.
  destruct (metricsStep l) eqn:Ml.
  2: { destruct (step_metrics_frame l s s' Ml E) as (Eg & _ & Ea & _).
       rewrite Eg, Ea. destruct l; try discriminate; simpl;
         rewrite app_nil_r; exact O. }
  destruct l; try discriminate; clear Ml; unfold step in E;
    destruct (panicked s); try discriminate.
  - (* ReadPacket *)
    destruct (dispatcher s); try discriminate. some_inv.
    unfold readPacket, dispatch; simpl.
    destruct (send (workers s) tt) as [c| |] eqn:Es; simpl.
    + unfold offered. rewrite flat_map_app. simpl. rewrite app_assoc.
      apply Subseq_app; [exact O | apply Subseq_refl].
    + destruct (metricsEnabled (h s)); simpl;
        rewrite <- (app_nil_r (accepted s ++ offered (goroutines s)));
        (apply Subseq_app; [exact O | apply Subseq_nil_l]).
    + rewrite <- (app_nil_r (accepted s ++ offered (goroutines s))).
      apply Subseq_app; [exact O | apply Subseq_nil_l].
  - (* Worker *)
    simpl. rewrite app_nil_r.
    destruct (nth_error (goroutines s) i) as [pc|] eqn:En; [|discriminate].
    assert (Eg : goroutines s = [pc] /\ i = 0%nat).
    { destruct (goroutines s) as [|x [|y rest]]; simpl in *.
      - destruct i; discriminate.
      - destruct i as [|[|i]]; simpl in En; try discriminate.
        inversion En; auto.
      - lia. }
    destruct Eg as (Eg & Ei). subst i. clear En. rewrite Eg in O.
    assert (Rl : forall s1, release 0 s = Some s1 ->
                 goroutines s1 = [] /\ accepted s1 = accepted s).
    { intros s1 Er. unfold release in Er.
      destruct (recv (workers s)) as [t c| |]; try discriminate.
      inversion Er; subst s1. simpl. rewrite Eg. simpl. auto. }
    assert (Quiet : forall pc' (s1 : State),
              goroutines s1 = goroutines s -> accepted s1 = accepted s ->
              offered [pc'] = [] ->
              Subseq (accepted (goto 0 pc' s1) ++
                      offered (goroutines (goto 0 pc' s1))) arr).
    { intros pc' s1 E1 E2 E3. unfold goto.
      change (accepted (set_goroutines (replace 0 pc' (goroutines s1)) s1))
        with (accepted s1).
      change (goroutines (set_goroutines (replace 0 pc' (goroutines s1)) s1))
        with (replace 0 pc' (goroutines s1)).
      rewrite E1, E2, Eg.
      change (replace 0 pc' [pc]) with [pc'].
      rewrite E3, app_nil_r. eapply Subseq_app_l. exact O. }
    destruct pc; simpl in E;
      try (some_inv; apply Quiet; auto;
           try (destruct (_ <=? _)); reflexivity).
    + destruct (send (processedChan (h s)) payload) eqn:Es.
      * some_inv. unfold goto; simpl. rewrite Eg. simpl.
        simpl in O. destruct (metricsEnabled _); simpl; rewrite app_nil_r;
          exact O.
      * some_inv. apply Quiet; auto; destruct (metricsEnabled (h s));
          reflexivity.
      * destruct (release 0 s) as [s1|] eqn:Er; some_inv; simpl.
        -- destruct (Rl s1 eq_refl) as (E1 & E2). rewrite E1, E2. simpl.
           rewrite app_nil_r. eapply Subseq_app_l. exact O.
        -- rewrite Eg. exact O.
    + destruct (Rl s' E) as (E1 & E2). rewrite E1, E2. simpl.
      rewrite app_nil_r. eapply Subseq_app_l. exact O.
Qed.

Lemma exec_Ordered (tr : list Label) :
  forall (arr : list Payload) (s s' : State),
  Inv 1 s -> Ordered arr s -> exec tr s = Some s' ->
  Ordered (arr ++ arrivals tr) s'.
Proof.
  induction tr as [|l tr IH]; intros arr s s' I O E; simpl in E.
  - some_inv. unfold arrivals; simpl. rewrite app_nil_r. exact O.
  - destruct (step l s) as [s1|] eqn:Es; [|discriminate].
    assert (Ea : arrivals (l :: tr) = arrivals [l] ++ arrivals tr).
    { unfold arrivals; simpl. rewrite app_nil_r. reflexivity. }
    rewrite Ea, app_assoc.
    apply (IH _ s1); [eapply step_Inv; eassumption | | exact E].
    destruct I as [[Hn _ _] S _ _ _ _].
    eapply step_Ordered; eassumption.
Qed.

(** X8: with a pool of one worker nothing is reordered.  The payloads the
    queue accepted are, in order, a subsequence of the payloads read from
    the track (drops leave gaps, nothing is swapped or repeated), and while
    no write has failed so are the payloads the sink has received. *)
Theorem X8_single_worker_keeps_arrival_order
  (stdin : W) (t0 : Time) (schedule : list Label) (s : State) :
  exec schedule (start 1 stdin t0) = Some s ->
  Subseq (accepted s) (arrivals schedule) /\
  (allOk (sinkLog s) = true ->
   Subseq (delivered (sinkLog s)) (arrivals schedule)).
Proof.
  intros E.
  pose proof (reachable_Inv _ _ _ _ _ E) as I.
  assert (O : Ordered ([] ++ arrivals schedule) s).
  { apply (exec_Ordered schedule [] (start 1 stdin t0));
      [apply Inv_start | constructor | exact E]. }
  simpl in O. unfold Ordered in O. apply Subseq_app_l in O.
  split; [exact O|].
  intros Hk. destruct I as [_ _ [_ Qf _ _] _ Wr _].
  destruct (Wr Hk) as [Wf _ _].
  rewrite Qf, <- Wf, <- app_assoc in O. apply Subseq_app_l in O. exact O.
Qed.

(** ** While nothing fails *)

(** X16: while no write has failed, under every schedule the sink has
    received exactly a prefix of the sequence the writer drained from the
    queue, in drain order, and the rest is the batch, in order; the drained
    sequence itself is a prefix of what the queue accepted; once the writer
    has returned the sink has received the whole drained sequence.  Each
    flush whose writes succeed adds the batch to the sink in batch order. *)
Theorem X16_drain_order_while_writes_succeed
  (n : nat) (stdin : W) (t0 : Time) (schedule : list Label) (s : State) :
  exec schedule (start n stdin t0) = Some s ->
  allOk (sinkLog s) = true ->
  delivered (sinkLog s) ++ batch s = drained s /\
  drained s ++ buf (processedChan (h s)) = accepted s /\
  (writer s = WriterReturned -> delivered (sinkLog s) = drained s) /\
  (forall s0 : State,
     writesSucceed (ffmpegStdin (h s0)) (batch s0) = true ->
     delivered (sinkLog (flushBatch s0)) = delivered (sinkLog s0) ++ batch s0).
Proof.
  intros E Hk. pose proof (reachable_Inv _ _ _ _ _ E) as I.
  destruct I as [_ _ [_ Qf _ _] _ Wr _].
  destruct (Wr Hk) as [Wf _ Wd].
  split; [exact Wf|]. split; [symmetry; exact Qf|]. split.
  - intros Hr. rewrite <- Wf, (Wd Hr), app_nil_r. reflexivity.
  - intros s0 Hs. destruct (flushBatch_success s0 Hs) as (L & _ & _).
    rewrite L, delivered_app, delivered_ok. reflexivity.
Qed.

(** X17: when the payload taken from the queue brings the batch to
    [batchSize], the same step of the writer flushes: if the writes succeed
    the whole batch, the new payload last, is appended to the sink's log in
    batch order and the batch is empty afterwards, and no tick is consumed.
    So while no write has failed the batch is below [batchSize] whenever
    the writer is at its [select]. *)
Theorem X17_size_flush_while_writes_succeed
  (n : nat) (stdin : W) (t0 : Time) (schedule : list Label) (s : State) :
  exec schedule (start n stdin t0) = Some s ->
  (forall payload rest,
     panicked s = false -> writer s = InLoop ->
     buf (processedChan (h s)) = payload :: rest ->
     (batchSize <= length (batch s ++ [payload]))%nat ->
     writesSucceed (ffmpegStdin (h s)) (batch s ++ [payload]) = true ->
     exists s', step WriterChan s = Some s' /\
       sinkLog s' = sinkLog s ++ map ok (batch s ++ [payload]) /\
       batch s' = [] /\
       drained s' = drained s ++ [payload] /\
       tickerC s' = tickerC s) /\
  (allOk (sinkLog s) = true -> (length (batch s) < batchSize)%nat).
Proof.
  intros E. pose proof (reachable_Inv _ _ _ _ _ E) as I.
  destruct I as [_ _ _ _ Wr _].
  split.
  - intros payload rest Hp Hw Hb Hge Hs.
    unfold step. rewrite Hp, Hw. unfold writerChan, recv. rewrite Hb.
    eexists; split; [reflexivity|].
    unfold onPayload.
    set (s1 := set_batch _ _).
    assert (B1 : batch s1 = batch s ++ [payload]) by reflexivity.
    rewrite B1. destruct (Nat.leb_spec batchSize (length (batch s ++ [payload])));
      [|lia].
    assert (Hs1 : writesSucceed (ffmpegStdin (h s1)) (batch s1) = true)
      by exact Hs.
    destruct (flushBatch_success s1 Hs1) as (L & B & _).
    pose proof (flushBatch_frame s1) as F; simpl in F.
    destruct F as (_&_&_&_&_&_&_&_&_&Fc&_&_&_&_&_&_&_&Fd).
    rewrite L, B, Fc, Fd. auto.
  - intros Hk. destruct (Wr Hk) as [_ Wb _]. exact Wb.
Qed.

(** The writer alone drains a closed queue: one step per buffered payload
    and one more to see the queue closed and empty. *)
Lemma writer_drains (k : nat) :
  forall s : State,
  length (buf (processedChan (h s))) = k ->
  closed (processedChan (h s)) = true ->
  panicked s = false -> writer s = InLoop ->
  exists s', exec (repeat WriterChan (S k)) s = Some s' /\
             writer s' = WriterReturned /\ accepted s' = accepted s.
Proof.
  induction k as [|k IH]; intros s Hl Hc Hp Hw.
  - destruct (buf (processedChan (h s))) eqn:Eb; [|discriminate].
    simpl. unfold step. rewrite Hp, Hw. unfold writerChan, recv.
    rewrite Eb, Hc. eexists; split; [reflexivity|].
    unfold onClosed; simpl.
    pose proof (flushBatch_frame s) as F; simpl in F.
    destruct F as (_&_&_&_&_&_&_&_&_&_&_&_&_&_&_&_&Fa&_). auto.
  - destruct (buf (processedChan (h s))) as [|p rest] eqn:Eb;
      [discriminate|].
    change (repeat WriterChan (S (S k)))
      with (WriterChan :: repeat WriterChan (S k)).
    cbn [exec]. unfold step at 1. rewrite Hp, Hw. unfold writerChan, recv.
    rewrite Eb.
    set (s2 := onPayload p _).
    assert (F : processedChan (h s2) =
                mkChan rest (cap (processedChan (h s))) (closed (processedChan (h s)))
                /\ panicked s2 = false /\ writer s2 = InLoop /\
                accepted s2 = accepted s).
    { subst s2. unfold onPayload. set (s1 := set_batch _ _).
      pose proof (flushBatch_frame s1) as F; simpl in F.
      destruct F as (Fq&_&_&_&_&_&_&_&_&_&_&Fw&_&_&Fp&_&Fa&_).
      destruct (batchSize <=? length (batch s1))%nat;
        [rewrite Fq, Fp, Fw, Fa|]; subst s1; simpl; auto. }
    destruct F as (Fq & Fp & Fw & Fa).
    destruct (IH s2) as (s' & Ex & Hr & Ha); auto.
    + rewrite Fq. simpl. simpl in Hl. lia.
    + rewrite Fq. simpl. exact Hc.
    + exists s'. rewrite Ha, Fa. auto.
Qed.

(** X18: the queue is closed exactly when [processRTPPackets] has returned.
    Under every schedule, once the writer has returned without a failed
    write, the sink has received exactly the payloads the queue accepted,
    each once and in order, and nothing is left in the queue or the batch.
    From any state with the queue closed, the writer at its [select] and
    the process not panicked, the writer's next steps take the buffered
    payloads one by one and then return.  And whatever else is scheduled in
    between, a run from a closed queue in which the writer gets more
    receives than the queue holds payloads ends with the writer returned,
    nothing more accepted, and (no write having failed) everything accepted
    at the sink. *)
Theorem X18_closure_drains_when_nothing_fails
  (n : nat) (stdin : W) (t0 : Time) (schedule : list Label) (s : State) :
  exec schedule (start n stdin t0) = Some s ->
  (closed (processedChan (h s)) = true <-> dispatcher s = Returned) /\
  (writer s = WriterReturned -> allOk (sinkLog s) = true ->
   delivered (sinkLog s) = accepted s /\
   buf (processedChan (h s)) = [] /\ batch s = []) /\
  (closed (processedChan (h s)) = true ->
   panicked s = false -> writer s = InLoop ->
   exists s',
     exec (repeat WriterChan (S (length (buf (processedChan (h s)))))) s
       = Some s' /\
     writer s' = WriterReturned /\
     accepted s' = accepted s /\
     (allOk (sinkLog s') = true -> delivered (sinkLog s') = accepted s)) /\
  (forall later s',
     closed (processedChan (h s)) = true ->
     exec later s = Some s' ->
     (length (buf (processedChan (h s))) <
      length (filter isWriterChan later))%nat ->
     writer s' = WriterReturned /\
     accepted s' = accepted s /\
     (allOk (sinkLog s') = true -> delivered (sinkLog s') = accepted s)).
Proof.
  intros E.
  assert (Safe : forall s1, Inv n s1 ->
            writer s1 = WriterReturned -> allOk (sinkLog s1) = true ->
            delivered (sinkLog s1) = accepted s1 /\
            buf (processedChan (h s1)) = [] /\ batch s1 = []).
  { intros s1 [_ _ [_ Qf _ Qd] _ Wr _] Hr Hk.
    destruct (Wr Hk) as [Wf _ Wd]. destruct (Qd Hr) as [_ Qe].
    rewrite Qf, Qe, app_nil_r, <- Wf, (Wd Hr), app_nil_r. auto. }
  pose proof (reachable_Inv _ _ _ _ _ E) as I.
  split; [destruct I as [_ _ [_ _ Qc _] _ _ _]; exact Qc|].
  split; [apply Safe; exact I|].
  split.
  - intros Hc Hp Hw.
    destruct (writer_drains _ s eq_refl Hc Hp Hw) as (s' & Ex & Hr & Ha).
    exists s'. repeat split; auto.
    intros Hk. rewrite <- Ha.
    apply Safe; auto. eapply exec_Inv; eassumption.
  - intros later s' Hc El Hlt.
    destruct (exec_closed_queue later s s' Hc El) as (_ & Ha & Hd).
    assert (Hr : writer s' = WriterReturned).
    { unfold drainLeft in Hd.
      destruct (writer s'); [|reflexivity].
      destruct (writer s); exfalso; lia. }
    split; [exact Hr|]. split; [exact Ha|].
    intros Hk. rewrite <- Ha.
    apply Safe; auto. eapply exec_Inv; eassumption.
Qed.

End Pipeline.

(** * Concrete runs

    A pipe as a sink: writes fail once it is closed, and while it is open
    the outcome of each write is read off a list (an exhausted list means
    success), so that a transient error can be placed at a chosen write. *)
Record Pipe : Type := mkPipe {
  outcomes : list bool;
  isOpen : bool;
  received : list Payload
}.

Definition pipeWrite (w : Pipe) (p : Payload) : Pipe * bool :=
  if isOpen w then
    match outcomes w with
    | false :: rest => (mkPipe rest true (received w), false)
    | true :: rest => (mkPipe rest true (received w ++ [p]), true)
    | [] => (mkPipe [] true (received w ++ [p]), true)
    end
  else (w, false).

Definition pipeClose (w : Pipe) : Pipe :=
  mkPipe (outcomes w) false (received w).

#[export] Instance Pipe_WriteCloser : WriteCloser Pipe :=
  {| Write := pipeWrite; Close := pipeClose |}.

(** A pipe that accepts every write while open, and one whose second
    write fails. *)
Definition goodPipe : Pipe := mkPipe [] true [].
Definition flakyPipe : Pipe := mkPipe [true; false] true [].

(** A pipe whose reader has gone: every write fails. *)
Definition brokenPipe : Pipe := pipeClose goodPipe.

Definition pkt (b : byte) : Payload := [b].
Definition p1 : Payload := pkt x01.
Definition p2 : Payload := pkt x02.
Definition p3 : Payload := pkt x03.

(** The end state of a schedule ([s] itself if the schedule cannot run). *)
Definition run {W : Type} `{WriteCloser W}
  (schedule : list Label) (s : State) : State :=
  match exec schedule s with
  | Some s' => s'
  | None => s
  end.

(** One packet read and dispatched. *)
Definition arrive (p : Payload) : list Label := [OuterSelect; ReadPacket p].

(** One packet read, dispatched, and handed to the queue by worker 0, which
    then counts it and releases its slot (no report is due). *)
Definition handoff (p : Payload) : list Label :=
  arrive p ++ repeat (Worker 0%nat) 5.

(** Six packets arrive at a pool of four before any worker runs. *)
Definition burst : list Label :=
  arrive p1 ++ arrive p2 ++ arrive p3 ++ arrive p1 ++ arrive p2 ++ arrive p3.

Definition afterBurst : State := run burst (start 4 goodPipe 0).

(** C1 at the burst: four transforms in flight, one slot each, and worker 0
    gets to its release. *)
Lemma C1_witness :
  exec burst (start 4 goodPipe 0) = Some afterBurst /\
  inFlight afterBurst = 4%nat /\
  (inFlight afterBurst <= 4)%nat /\
  length (buf (workers afterBurst)) = inFlight afterBurst /\
  exists k s', exec (repeat (Worker 0%nat) k) afterBurst = Some s' /\
               S (inFlight s') = inFlight afterBurst.
Proof.
  assert (E : exec burst (start 4 goodPipe 0) = Some afterBurst)
    by (vm_compute; reflexivity).
  destruct (C1_bounded_concurrency 4%nat goodPipe 0 burst afterBurst E)
    as (B & S & R).
  split; [exact E|]. split; [vm_compute; reflexivity|].
  split; [exact B|]. split; [exact S|].
  destruct (R 0%nat (Offer p1)) as (k & s' & Ex & Hl & _);
    [vm_compute; reflexivity | vm_compute; reflexivity |].
  exists k, s'. split; assumption.
Defined.

(** Saturation: a hundred payloads fill the queue while the writer does not
    run, four more packets take the four slots, and the loop is inside
    [track.ReadRTP] again. *)
Definition saturate : list Label :=
  concat (repeat (handoff p1) 100) ++
  arrive p1 ++ arrive p2 ++ arrive p3 ++ arrive p1 ++ [OuterSelect].

Definition saturated : State := run saturate (start 4 goodPipe 0).


(** One payload sits alone in the batch. *)
Definition oneBatched : State :=
  run (handoff p1 ++ [WriterChan]) (start 4 goodPipe 0).

(** The clock reaches the ticker's deadline, the writer takes the tick at
    once, and the clock moves on. *)
Definition tickOnTime : list Label :=
  [Advance (2 * Millisecond); Advance (3 * Millisecond); WriterTick; Advance 1].

(** C5 with one payload alone in the batch: after one flush interval the
    tick flushes it; a tick on the empty batch writes nothing; and in the
    run in which the writer takes the tick when it is due the payload is at
    the sink once more than one flush interval has gone by. *)
Lemma C5_witness :
  exec (handoff p1 ++ [WriterChan]) (start 4 goodPipe 0) = Some oneBatched /\
  batch oneBatched = [p1] /\
  drained oneBatched = [p1] /\
  delivered (sinkLog oneBatched) = [] /\
  (let s := run [Advance flushInterval] oneBatched in
   exists s', step WriterTick s = Some s' /\
              sinkLog s' = [(p1, true)] /\ batch s' = []) /\
  (let s := run [Advance flushInterval; WriterTick; Advance flushInterval]
                oneBatched in
   exists s', step WriterTick s = Some s' /\ sinkLog s' = sinkLog s) /\
  exec tickOnTime oneBatched = Some (run tickOnTime oneBatched) /\
  prompt tickOnTime oneBatched = true /\
  allOk (sinkLog (run tickOnTime oneBatched)) = true /\
  now oneBatched + flushInterval < now (run tickOnTime oneBatched) /\
  exists rest,
    delivered (sinkLog (run tickOnTime oneBatched))
    = delivered (sinkLog oneBatched) ++ batch oneBatched ++ rest.
Proof.
  assert (E : exec (handoff p1 ++ [WriterChan]) (start 4 goodPipe 0)
              = Some oneBatched) by (vm_compute; reflexivity).
  assert (El : exec tickOnTime oneBatched = Some (run tickOnTime oneBatched))
    by (vm_compute; reflexivity).
  assert (Hq : prompt tickOnTime oneBatched = true) by (vm_compute; reflexivity).
  assert (Hk : allOk (sinkLog (run tickOnTime oneBatched)) = true)
    by (vm_compute; reflexivity).
  assert (Ht : now oneBatched + flushInterval < now (run tickOnTime oneBatched))
    by (vm_compute; reflexivity).
  split; [exact E|]. do 3 (split; [vm_compute; reflexivity|]).
  split; [|split].
  - cbv zeta.
    assert (E1 : exec ((handoff p1 ++ [WriterChan]) ++ [Advance flushInterval])
                   (start 4 goodPipe 0)
                 = Some (run [Advance flushInterval] oneBatched))
      by (vm_compute; reflexivity).
    destruct (C5_tick_flush_and_bounded_wait 4%nat goodPipe 0 _ _ E1)
      as (F & _ & _).
    destruct (F 5000000 []) as (s' & Es & L & B);
      try (vm_compute; reflexivity).
    exists s'. split; [exact Es|]. split; [exact L | exact B].
  - cbv zeta.
    assert (E2 : exec ((handoff p1 ++ [WriterChan]) ++
                       [Advance flushInterval; WriterTick; Advance flushInterval])
                   (start 4 goodPipe 0)
                 = Some (run [Advance flushInterval; WriterTick;
                              Advance flushInterval] oneBatched))
      by (vm_compute; reflexivity).
    destruct (C5_tick_flush_and_bounded_wait 4%nat goodPipe 0 _ _ E2)
      as (_ & N & _).
    destruct (N 10000000 []) as (s' & Es & L & _);
      try (vm_compute; reflexivity).
    exists s'. split; [exact Es | exact L].
  - split; [exact El|]. split; [exact Hq|]. split; [exact Hk|].
    split; [exact Ht|].
    destruct (C5_tick_flush_and_bounded_wait 4%nat goodPipe 0 _ _ E)
      as (_ & _ & S).
    exact (S tickOnTime (run tickOnTime oneBatched) El Hq Hk Ht).
Defined.

(** [p1] is alone in the batch on the broken pipe, and a tick is due. *)
Definition tickDueBroken : State :=
  run (handoff p1 ++ [WriterChan; Advance flushInterval])
      (start 4 brokenPipe 0).

(** C5 as the specification words it fails.  Taking a tick does not put a
    non-empty batch at the sink when the write fails: on the broken pipe the
    tick leaves [p1] unwritten.  And nothing in the code bounds the wait:
    on the good pipe, with the writer not scheduled for a second, [p1] is
    still unwritten long after one flush interval. *)
Lemma C5_counterexample :
  ~ (forall (stdin : Pipe) schedule s s',
       exec schedule (start 4 stdin 0) = Some s ->
       step WriterTick s = Some s' ->
       delivered (sinkLog s') = delivered (sinkLog s) ++ batch s) /\
  ~ (forall schedule later s s',
       exec schedule (start 4 goodPipe 0) = Some s ->
       exec later s = Some s' ->
       now s + flushInterval < now s' ->
       exists rest,
         delivered (sinkLog s') = delivered (sinkLog s) ++ batch s ++ rest).
Proof.
  split; intros C.
  - assert (D : delivered (sinkLog (run [WriterTick] tickDueBroken)) =
                delivered (sinkLog tickDueBroken) ++ batch tickDueBroken).
    { apply (C brokenPipe (handoff p1 ++ [WriterChan; Advance flushInterval]));
        vm_compute; reflexivity. }
    vm_compute in D. discriminate D.
  - destruct (C (handoff p1 ++ [WriterChan]) [Advance Second] oneBatched
                (run [Advance Second] oneBatched)) as (rest & D);
      try (vm_compute; reflexivity).
    vm_compute in D. discriminate D.
Qed.

(** A second passes before the first packet; its worker has counted it and
    is about to look at the clock. *)
Definition afterIdleSecond : State :=
  run ([Advance Second] ++ arrive p1 ++ repeat (Worker 0%nat) 3)
      (start 4 goodPipe 0).

(** C9 at the burst (six attempts: none accepted yet, two dropped, four
    pending) and at a report that is due. *)
Lemma C9_witness :
  exec ([Advance Second] ++ arrive p1 ++ repeat (Worker 0%nat) 3)
       (start 4 goodPipe 0) = Some afterIdleSecond /\
  attempts afterBurst = 6%nat /\
  length (accepted afterBurst) = 0%nat /\
  drops afterBurst = 2%nat /\
  pendingOffers afterBurst = 4%nat /\
  attempts afterBurst =
    (length (accepted afterBurst) + drops afterBurst +
     pendingOffers afterBurst)%nat /\
  exists s', exec (repeat (Worker 0%nat) 4) afterIdleSecond = Some s' /\
             stdout s' = [ProcessedPerSec 1] /\ packetCounter s' = 0.
Proof.
  assert (E : exec ([Advance Second] ++ arrive p1 ++ repeat (Worker 0%nat) 3)
                (start 4 goodPipe 0) = Some afterIdleSecond)
    by (vm_compute; reflexivity).
  assert (B : exec burst (start 4 goodPipe 0) = Some afterBurst)
    by (vm_compute; reflexivity).
  split; [exact E|].
  do 4 (split; [vm_compute; reflexivity|]).
  split.
  - destruct (C9_attempts_accounted_and_report 4%nat goodPipe 0 burst
                afterBurst B) as (A & _); [vm_compute; reflexivity|].
    exact A.
  - destruct (C9_attempts_accounted_and_report 4%nat goodPipe 0 _ _ E)
      as (_ & R); [vm_compute; reflexivity|].
    specialize (R 0%nat).
    assert (T : (Second <=? now afterIdleSecond - lastMetricTime afterIdleSecond)
                = true) by (vm_compute; reflexivity).
    rewrite T in R.
    destruct R as (s' & Ex & Out & Pc & _); [vm_compute; reflexivity|].
    exists s'. split; [exact Ex|]. split; [|exact Pc].
    rewrite Out. vm_compute; reflexivity.
Defined.

(** The report resets the counter: one packet, handed off a second after
    the start, and its worker run to the end. *)
Definition reportRun : list Label :=
  [Advance Second] ++ arrive p1 ++ repeat (Worker 0%nat) 8.

(** Two workers increment the counter at the same time: both load 0, both
    store 1. *)
Definition raceRun : list Label :=
  arrive p1 ++ arrive p2 ++
  [Worker 0%nat; Worker 1%nat;    (* both offers are accepted *)
   Worker 0%nat; Worker 1%nat;    (* both load packetCounter = 0 *)
   Worker 0%nat; Worker 1%nat;    (* both store 1 *)
   Worker 0%nat; Worker 0%nat;    (* the first checks the clock and ends *)
   Worker 0%nat; Worker 0%nat].   (* so does the second *)

(** C9 as the specification words it fails: with no transform in flight,
    [packetCounter] plus the drops is not the number of attempts after a
    report has reset the counter, and even with the reported counts added
    back it is not after two concurrent increments. *)
Lemma C9_counterexample :
  ~ (forall schedule s,
       exec schedule (start 4 goodPipe 0) = Some s -> inFlight s = 0%nat ->
       dropAccounting packetCounter s) /\
  ~ (forall schedule s,
       exec schedule (start 4 goodPipe 0) = Some s -> inFlight s = 0%nat ->
       dropAccounting (fun s => reported s + packetCounter s) s).
Proof.
  split; intros C.
  - specialize (C reportRun (run reportRun (start 4 goodPipe 0))).
    assert (D : @dropAccounting Pipe packetCounter
                  (run reportRun (start 4 goodPipe 0)))
      by (apply C; vm_compute; reflexivity).
    vm_compute in D. discriminate D.
  - specialize (C raceRun (run raceRun (start 4 goodPipe 0))).
    assert (D : @dropAccounting Pipe (fun s => reported s + packetCounter s)
                  (run raceRun (start 4 goodPipe 0)))
      by (apply C; vm_compute; reflexivity).
    vm_compute in D. discriminate D.
Qed.



(** Two payloads are batched on the flaky pipe; the flush of the first tick
    fails at [p2], the flush of the second tick goes through. *)
Definition flakyRun : list Label :=
  handoff p1 ++ handoff p2 ++
  [WriterChan; WriterChan; Advance flushInterval; WriterTick;
   Advance flushInterval; WriterTick].

Definition afterFlakyRun : State := run flakyRun (start 4 flakyPipe 0).

(** C3 on the code, with one transient write error: the writer drained
    [p1] and then [p2], and the sink has received [p1], [p1], [p2].  The
    failed flush had written [p1] and kept the whole batch, so the next
    flush wrote [p1] once more before [p2]. *)
Lemma C3_write_error_breaks_drain_order :
  exec flakyRun (start 4 flakyPipe 0) = Some afterFlakyRun /\
  panicked afterFlakyRun = false /\
  drained afterFlakyRun = [p1; p2] /\
  sinkLog afterFlakyRun = [(p1, true); (p2, false); (p1, true); (p2, true)] /\
  delivered (sinkLog afterFlakyRun) = [p1; p1; p2] /\
  received (ffmpegStdin (h afterFlakyRun)) = [p1; p1; p2] /\
  delivered (sinkLog afterFlakyRun) <> drained afterFlakyRun.
Proof.
  do 6 (split; [vm_compute; reflexivity|]). vm_compute. discriminate.
Qed.

(** Six payloads reach the queue and the writer takes them all, on the
    broken pipe. *)
Definition sixHandoffs : list Label :=
  handoff p1 ++ handoff p2 ++ handoff p3 ++ handoff p1 ++ handoff p2 ++
  handoff p3.

Definition fiveOnBrokenPipe : State :=
  run (sixHandoffs ++ repeat WriterChan 5) (start 4 brokenPipe 0).

Definition sixOnBrokenPipe : State :=
  run [WriterChan] fiveOnBrokenPipe.

(** C4 on the code, with the broken pipe: the fifth payload brings the
    batch to [batchSize] and the writer does call [flushBatch] (one write
    is tried and fails), but the batch is not cleared and the writer stays
    in its loop; the sixth payload is appended behind the five, and the
    batch holds six, more than [batchSize]. *)
Lemma C4_batch_outgrows_threshold :
  exec (sixHandoffs ++ repeat WriterChan 5) (start 4 brokenPipe 0)
    = Some fiveOnBrokenPipe /\
  sinkLog fiveOnBrokenPipe = [(p1, false)] /\
  batch fiveOnBrokenPipe = [p1; p2; p3; p1; p2] /\
  writer fiveOnBrokenPipe = InLoop /\
  step WriterChan fiveOnBrokenPipe = Some sixOnBrokenPipe /\
  writer sixOnBrokenPipe = InLoop /\
  panicked sixOnBrokenPipe = false /\
  batch sixOnBrokenPipe = [p1; p2; p3; p1; p2; p3] /\
  (batchSize < length (batch sixOnBrokenPipe))%nat /\
  delivered (sinkLog sixOnBrokenPipe) = [].
Proof.
  do 8 (split; [vm_compute; reflexivity|]).
  split; [vm_compute; lia | vm_compute; reflexivity].
Qed.

(** The connection closes with [p1] in the queue: the cleanup goroutine
    closes [done] and at once the pipe, [track.ReadRTP] fails and the queue
    is closed; the writer then takes [p1] and sees the queue closed. *)
Definition shutdown : list Label :=
  handoff p1 ++
  [OuterSelect; Stop; CloseStdin; ReadError; WriterChan; WriterChan].

Definition afterShutdown : State := run shutdown (start 4 goodPipe 0).

(** [p1] is in the queue and the worker started for [p2] has not made its
    offer when [track.ReadRTP] fails; then that worker runs. *)
Definition readFailsInFlight : list Label :=
  handoff p1 ++ arrive p2 ++ [OuterSelect; ReadError; Worker 0%nat].

Definition afterCrash : State := run readFailsInFlight (start 4 goodPipe 0).

(** On the flaky pipe a tick's flush fails at [p2]; then [track.ReadRTP]
    fails and the writer sees the queue closed. *)
Definition closeAfterFailure : list Label :=
  handoff p1 ++ handoff p2 ++
  [WriterChan; WriterChan; Advance flushInterval; WriterTick;
   OuterSelect; ReadError; WriterChan].

Definition afterCloseAfterFailure : State :=
  run closeAfterFailure (start 4 flakyPipe 0).

(** C6 on the code.  At shutdown the pipe is closed before the writer's
    final flush: the writer returns with [p1] accepted and nothing at the
    sink.  When the read fails with a worker in flight the process panics
    with [p1] still in the queue, and nothing runs any more.  And after a
    failed flush the final flush writes [p1] a second time. *)
Lemma C6_closure_loses_or_repeats_payloads :
  (exec shutdown (start 4 goodPipe 0) = Some afterShutdown /\
   closed (processedChan (h afterShutdown)) = true /\
   writer afterShutdown = WriterReturned /\
   panicked afterShutdown = false /\
   accepted afterShutdown = [p1] /\
   sinkLog afterShutdown = [(p1, false)] /\
   delivered (sinkLog afterShutdown) = []) /\
  (exec readFailsInFlight (start 4 goodPipe 0) = Some afterCrash /\
   closed (processedChan (h afterCrash)) = true /\
   panicked afterCrash = true /\
   accepted afterCrash = [p1] /\
   buf (processedChan (h afterCrash)) = [p1] /\
   delivered (sinkLog afterCrash) = [] /\
   forall l, step l afterCrash = None) /\
  (exec closeAfterFailure (start 4 flakyPipe 0) = Some afterCloseAfterFailure /\
   closed (processedChan (h afterCloseAfterFailure)) = true /\
   writer afterCloseAfterFailure = WriterReturned /\
   accepted afterCloseAfterFailure = [p1; p2] /\
   delivered (sinkLog afterCloseAfterFailure) = [p1; p1; p2]).
Proof.
  split; [|split].
  - do 6 (split; [vm_compute; reflexivity|]). vm_compute; reflexivity.
  - do 6 (split; [vm_compute; reflexivity|]).
    assert (P : panicked afterCrash = true) by (vm_compute; reflexivity).
    intros l. unfold step. rewrite P. reflexivity.
  - do 4 (split; [vm_compute; reflexivity|]). vm_compute; reflexivity.
Qed.

(** A payload is handed off and batched, and a tick comes. *)
Definition firstFailure : list Label :=
  handoff p1 ++ [WriterChan; Advance flushInterval; WriterTick].

Definition secondFailure : list Label :=
  handoff p2 ++ [WriterChan; Advance flushInterval; WriterTick].

Definition afterFirstFailure : State :=
  run firstFailure (start 4 brokenPipe 0).

Definition afterSecondFailure : State :=
  run secondFailure afterFirstFailure.

(** C7 on the code, with the broken pipe: [p1] is in the batch when a tick
    comes and the flush fails, yet the writer is still in its loop with
    [p1] batched.  It then takes [p2] into the batch behind [p1], and on
    the following tick it tries [p1] again: the failure neither ended the
    writer nor stopped the retry and the buffering. *)
Lemma C7_write_failure_does_not_stop_writer :
  exec firstFailure (start 4 brokenPipe 0) = Some afterFirstFailure /\
  sinkLog afterFirstFailure = [(p1, false)] /\
  writer afterFirstFailure = InLoop /\
  batch afterFirstFailure = [p1] /\
  exec secondFailure afterFirstFailure = Some afterSecondFailure /\
  writer afterSecondFailure = InLoop /\
  batch afterSecondFailure = [p1; p2] /\
  sinkLog afterSecondFailure = [(p1, false); (p1, false)] /\
  stdout afterSecondFailure = [ErrorWritingFFmpeg; ErrorWritingFFmpeg].
Proof.
  do 8 (split; [vm_compute; reflexivity|]). vm_compute; reflexivity.
Qed.

(** [track.ReadRTP] fails while the worker started for [p1] has not made
    its offer. *)
Definition readFailsEarly : list Label :=
  arrive p1 ++ [OuterSelect; ReadError].

Definition closedWithWorker : State :=
  run readFailsEarly (start 4 goodPipe 0).

(** C8 on the code: after the early read failure [processRTPPackets] has
    returned and closed the queue while the worker for [p1] is still about
    to offer; the worker then sends on the closed channel and the process
    panics, with nothing accepted. *)
Lemma C8_offer_on_closed_queue :
  exec readFailsEarly (start 4 goodPipe 0) = Some closedWithWorker /\
  dispatcher closedWithWorker = Returned /\
  closed (processedChan (h closedWithWorker)) = true /\
  nth_error (goroutines closedWithWorker) 0 = Some (Offer p1) /\
  step (Worker 0%nat) closedWithWorker
    = Some (run [Worker 0%nat] closedWithWorker) /\
  panicked (run [Worker 0%nat] closedWithWorker) = true /\
  accepted (run [Worker 0%nat] closedWithWorker) = [].
Proof.
  do 6 (split; [vm_compute; reflexivity|]). vm_compute; reflexivity.
Qed.

(** * [saveToDisk], main.go:166-179

    The loop of the VP8 path: read a packet, write its payload, until a
    read or a write fails.  The track is the list of results its next
    calls to [ReadRTP] give; when the list is used up the loop is waiting
    inside [ReadRTP]. *)
Section SaveToDisk.

Context {W : Type} `{WriteCloser W}.

Inductive ReadResult : Type :=
| Packet (payload : Payload)
| ReadFailure.

Inductive DiskLine : Type :=
| DiskErrorReadingRTP      (* "Error reading RTP:" err *)
| ErrorWritingPayload.     (* "Error writing payload:" err *)

Inductive Exit : Type :=
| ReturnedOnReadError
| ReturnedOnWriteError
| StillReading.

Record Saved : Type := mkSaved {
  diskWriter : W;
  diskLog : list (Payload * bool);
  diskOut : list DiskLine;
  exit : Exit
}.

Fixpoint saveToDisk (writer : W) (track : list ReadResult) : Saved :=
  match track with
  | [] => mkSaved writer [] [] StillReading
  | ReadFailure :: _ => mkSaved writer [] [DiskErrorReadingRTP] ReturnedOnReadError
  | Packet payload :: rest =>
      let (writer', good) := Write writer payload in
      if good then
        let r := saveToDisk writer' rest in
        mkSaved (diskWriter r) ((payload, true) :: diskLog r) (diskOut r) (exit r)
      else
        mkSaved writer' [(payload, false)] [ErrorWritingPayload]
                ReturnedOnWriteError
  end.

(** The payloads read before the first read failure. *)
Fixpoint packetsBefore (track : list ReadResult) : list Payload :=
  match track with
  | Packet payload :: rest => payload :: packetsBefore rest
  | _ => []
  end.

Definition isFailure (r : ReadResult) : bool :=
  match r with ReadFailure => true | Packet _ => false end.

(** X10: as long as its writes succeed, [saveToDisk] writes every payload
    read before the first read failure, each once and in read order, and
    nothing else; it returns on that failure with one line printed, and is
    still reading if the track has not failed. *)
Theorem X10_saveToDisk_writes_in_read_order
  (writer : W) (track : list ReadResult) :
  allOk (diskLog (saveToDisk writer track)) = true ->
  delivered (diskLog (saveToDisk writer track)) = packetsBefore track /\
  (existsb isFailure track = true ->
   exit (saveToDisk writer track) = ReturnedOnReadError /\
   diskOut (saveToDisk writer track) = [DiskErrorReadingRTP]) /\
  (existsb isFailure track = false ->
   exit (saveToDisk writer track) = StillReading /\
   diskOut (saveToDisk writer track) = []).
Proof.
  revert writer. induction track as [|r rest IH]; intros writer; simpl.
  - intros _. repeat split; auto; discriminate.
  - destruct r as [payload|]; simpl.
    + destruct (Write writer payload) as [w' [|]]; simpl.
      * intros Hk. destruct (IH w' Hk) as (D & F & N).
        unfold delivered in *; simpl. rewrite D. auto.
      * discriminate.
    + intros _. repeat split; auto; discriminate.
Qed.

(** X11: a failed write ends [saveToDisk] at once.  The failed write is the
    last thing it does: the payloads read before it were written in order,
    the rest of the track is not read, and one error line is printed.  In
    particular the log never holds more than one failed write. *)
Theorem X11_saveToDisk_stops_at_first_write_error
  (writer : W) (track : list ReadResult) :
  allOk (diskLog (saveToDisk writer track)) = false ->
  exit (saveToDisk writer track) = ReturnedOnWriteError /\
  diskOut (saveToDisk writer track) = [ErrorWritingPayload] /\
  exists before failed unread,
    track = map Packet before ++ Packet failed :: unread /\
    diskLog (saveToDisk writer track) = map ok before ++ [(failed, false)].
Proof.
  revert writer. induction track as [|r rest IH]; intros writer; simpl.
  - discriminate.
  - destruct r as [payload|]; simpl; [|discriminate].
    destruct (Write writer payload) as [w' [|]]; simpl.
    + intros Hk. destruct (IH w' Hk) as (E & O & before & failed & unread & T & L).
      split; [exact E|]. split; [exact O|].
      exists (payload :: before), failed, unread. simpl.
      split; [f_equal; exact T | rewrite L; reflexivity].
    + intros _. split; [reflexivity|]. split; [reflexivity|].
      exists [], payload, rest. auto.
Qed.

End SaveToDisk.

(** * [readUntilNewline], main.go:381-398

    The input is what the [bufio.Reader] made by the function has still
    to deliver from standard input: the bytes not yet read and what comes
    after them, which is end of file, a read error, or nothing yet (the
    terminal is open and the next read waits).  The [Println] after the
    loop is left out.  [strings.TrimSpace] is the library's and is
    taken as it is; what is proved holds for any such function. *)
Section ReadUntilNewline.

Variable TrimSpace : list byte -> list byte.

Inductive Ending : Type := EndOfFile | BrokenInput | OpenTerminal.

Record Stdin : Type := mkStdin {
  unread : list byte;
  ending : Ending
}.

Definition newline : byte := x0a.

(** The bytes up to and including the first [delim], and the rest. *)
Fixpoint cut (delim : byte) (data : list byte)
  : option (list byte * list byte) :=
  match data with
  | [] => None
  | b :: rest =>
      if Byte.eqb b delim then Some ([b], rest)
      else match cut delim rest with
           | Some (line, rest') => Some (b :: line, rest')
           | None => None
           end
  end.

Inductive ReadErr : Type := NoError | EOF | OtherError.

(** [bufio.Reader.ReadString]: the line with its delimiter; or, when the
    input ends first, what was left together with the error.  [None]: the
    call waits for more input. *)
Definition ReadString (delim : byte) (r : Stdin)
  : option (list byte * ReadErr * Stdin) :=
  match cut delim (unread r) with
  | Some (line, rest) => Some (line, NoError, mkStdin rest (ending r))
  | None =>
      match ending r with
      | EndOfFile => Some (unread r, EOF, mkStdin [] EndOfFile)
      | BrokenInput => Some (unread r, OtherError, mkStdin [] BrokenInput)
      | OpenTerminal => None
      end
  end.

Inductive Outcome : Type :=
| Gives (text : list byte) (rest : Stdin)
| Panics
| Waits
| Spins.

(** The loop, with one unit of [fuel] per iteration; [Spins]: the fuel is
    used up and the loop is still running. *)
Fixpoint readUntilNewline (fuel : nat) (r : Stdin) : Outcome :=
  match fuel with
  | O => Spins
  | S fuel' =>
      match ReadString newline r with
      | None => Waits
      | Some (line, OtherError, _) => Panics
      | Some (line, _, r') =>
          match TrimSpace line with
          | [] => readUntilNewline fuel' r'
          | text => Gives text r'
          end
      end
  end.

(** A complete line: bytes without a newline, then the newline. *)
Definition isLine (l : list byte) : Prop :=
  exists body, l = body ++ [newline] /\ ~ In newline body.

Definition blank (l : list byte) : Prop := TrimSpace l = [].

Lemma cut_line (body rest : list byte) :
  ~ In newline body ->
  cut newline (body ++ newline :: rest) = Some (body ++ [newline], rest).
Proof.
  induction body as [|b body IH]; simpl; intros Hn.
  - reflexivity.
  - destruct (Byte.eqb b newline) eqn:Eb.
    + apply Byte.byte_dec_bl in Eb. exfalso. apply Hn. left. exact Eb.
    + rewrite IH; [reflexivity|]. intros Hin. apply Hn. right. exact Hin.
Qed.

Lemma cut_none (data : list byte) :
  ~ In newline data -> cut newline data = None.
Proof.
  induction data as [|b data IH]; simpl; intros Hn; [reflexivity|].
  destruct (Byte.eqb b newline) eqn:Eb.
  - apply Byte.byte_dec_bl in Eb. exfalso. apply Hn. left. exact Eb.
  - rewrite IH; [reflexivity|]. intros Hin. apply Hn. right. exact Hin.
Qed.

(** Blank lines are skipped, one iteration each. *)
Lemma skip_blanks (blanks : list (list byte)) :
  forall (fuel : nat) (rest : list byte) (e : Ending),
  Forall (fun l => isLine l /\ blank l) blanks ->
  readUntilNewline (length blanks + fuel) (mkStdin (concat blanks ++ rest) e)
  = readUntilNewline fuel (mkStdin rest e).
Proof.
  induction blanks as [|l blanks IH]; intros fuel rest e Hb; [reflexivity|].
  inversion Hb as [|x xs [(body & El & Hn) Hbl] Hrest]; subst x xs.
  simpl length. simpl plus. cbn [readUntilNewline].
  unfold ReadString. cbn [unread ending concat]. subst l.
  rewrite <- !app_assoc. simpl app.
  rewrite (cut_line body (concat blanks ++ rest) Hn).
  unfold blank in Hbl. rewrite Hbl. apply IH. exact Hrest.
Qed.

Lemma first_text_line
  (blanks : list (list byte)) (line rest : list byte) (e : Ending) :
  Forall (fun l => isLine l /\ blank l) blanks ->
  TrimSpace line <> [] ->
  (isLine line \/ (~ In newline line /\ rest = [] /\ e = EndOfFile)) ->
  readUntilNewline (S (length blanks))
                   (mkStdin (concat blanks ++ line ++ rest) e)
  = Gives (TrimSpace line) (mkStdin rest e).
Proof.
  intros Hb Ht Hl.
  replace (S (length blanks)) with (length blanks + 1)%nat by lia.
  rewrite skip_blanks by exact Hb.
  cbn [readUntilNewline]. unfold ReadString. cbn [unread ending].
  destruct Hl as [(body & El & Hn) | (Hn & Er & Ee)].
  - subst line. rewrite <- app_assoc. simpl app.
    rewrite (cut_line body rest Hn).
    destruct (TrimSpace (body ++ [newline])); [contradiction|reflexivity].
  - subst rest e. rewrite app_nil_r, (cut_none line Hn).
    destruct (TrimSpace line); [contradiction|reflexivity].
Qed.

(** X12: [readUntilNewline] skips the blank lines and returns the first
    line that [TrimSpace] does not empty, trimmed and therefore not empty;
    what follows that line is not looked at.  The line may also be the last
    one, without a newline, before end of file.  More iterations give no
    other result. *)
Theorem X12_readUntilNewline_returns_first_text_line
  (blanks : list (list byte)) (line rest : list byte) (e : Ending) :
  Forall (fun l => isLine l /\ blank l) blanks ->
  TrimSpace line <> [] ->
  (isLine line \/ (~ In newline line /\ rest = [] /\ e = EndOfFile)) ->
  readUntilNewline (S (length blanks))
                   (mkStdin (concat blanks ++ line ++ rest) e)
  = Gives (TrimSpace line) (mkStdin rest e) /\
  (forall fuel text rest',
     readUntilNewline fuel (mkStdin (concat blanks ++ line ++ rest) e)
     = Gives text rest' ->
     text = TrimSpace line /\ rest' = mkStdin rest e).
Proof.
  intros Hb Ht Hl.
  pose proof (first_text_line blanks line rest e Hb Ht Hl) as F.
  split; [exact F|].
  intros fuel text rest' E.
  assert (Mono : forall k r t r',
            readUntilNewline k r = Gives t r' ->
            forall k', (k <= k')%nat -> readUntilNewline k' r = Gives t r').
  { induction k as [|k IH]; intros r t r' Ek k' Hk; [discriminate|].
    destruct k' as [|k']; [lia|].
    cbn [readUntilNewline] in *.
    destruct (ReadString newline r) as [[[l er] r1]|]; [|discriminate].
    destruct er; try discriminate;
      (destruct (TrimSpace l); [apply IH; [exact Ek | lia] | exact Ek]). }
  pose proof (Mono _ _ _ _ E (fuel + S (length blanks))%nat ltac:(lia)) as E1.
  pose proof (Mono _ _ _ _ F (fuel + S (length blanks))%nat ltac:(lia)) as E2.
  rewrite E1 in E2. inversion E2. auto.
Qed.

(** X13: when the input holds nothing but blank lines, [readUntilNewline]
    does not return.  At end of file it goes round its loop for ever,
    whatever the fuel; on a read error it panics, even if the unfinished
    last line had text in it; on an open terminal it waits. *)
Theorem X13_readUntilNewline_without_text
  (blanks : list (list byte)) (tail : list byte) :
  Forall (fun l => isLine l /\ blank l) blanks ->
  ~ In newline tail ->
  (TrimSpace [] = [] -> blank tail ->
   forall fuel,
     readUntilNewline fuel (mkStdin (concat blanks ++ tail) EndOfFile) = Spins) /\
  (forall fuel,
     readUntilNewline (length blanks + S fuel)
                      (mkStdin (concat blanks ++ tail) BrokenInput) = Panics) /\
  (forall fuel,
     readUntilNewline (length blanks + S fuel)
                      (mkStdin (concat blanks ++ tail) OpenTerminal) = Waits).
Proof.
  intros Hb Hn. split; [|split].
  - intros Hnil Ht.
    assert (Dry : forall fuel, readUntilNewline fuel (mkStdin [] EndOfFile) = Spins).
    { induction fuel as [|fuel IH]; [reflexivity|].
      cbn [readUntilNewline]. unfold ReadString. simpl.
      rewrite Hnil. exact IH. }
    assert (Tail : forall fuel,
              readUntilNewline fuel (mkStdin tail EndOfFile) = Spins).
    { intros [|fuel]; [reflexivity|].
      cbn [readUntilNewline]. unfold ReadString. cbn [unread ending].
      rewrite (cut_none tail Hn). unfold blank in Ht. rewrite Ht. apply Dry. }
    clear Hnil Ht Dry. revert Hb.
    induction blanks as [|l blanks IH]; intros Hb fuel; [apply Tail|].
    inversion Hb as [|x xs [(body & El & Hb1) Hbl] Hrest]; subst x xs.
    destruct fuel as [|fuel]; [reflexivity|].
    cbn [readUntilNewline]. unfold ReadString. cbn [unread ending concat].
    subst l. rewrite <- !app_assoc. simpl app.
    rewrite (cut_line body (concat blanks ++ tail) Hb1).
    unfold blank in Hbl. rewrite Hbl. apply IH. exact Hrest.
  - intros fuel. rewrite skip_blanks by exact Hb.
    cbn [readUntilNewline]. unfold ReadString. cbn [unread ending].
    rewrite (cut_none tail Hn). reflexivity.
  - intros fuel. rewrite skip_blanks by exact Hb.
    cbn [readUntilNewline]. unfold ReadString. cbn [unread ending].
    rewrite (cut_none tail Hn). reflexivity.
Qed.

End ReadUntilNewline.

(** * [encode], [decode] and the offer read by [main]
      (main.go:344-345 and 400-419)

    [json.Marshal], [json.Unmarshal] and [base64.StdEncoding] are the
    library's and are taken as they are: [None] is a returned error, and
    [Unmarshal] gives the object after the bytes were stored into it. *)
(** What a function that may panic gives. *)
Inductive Result (A : Type) : Type :=
| Value (a : A)
| Panic.
Arguments Value {A} _.
Arguments Panic {A}.

Section SessionDescriptions.

Variable SessionDescription : Type.
Variable Marshal : SessionDescription -> option (list byte).
Variable Unmarshal :
  list byte -> SessionDescription -> option SessionDescription.
Variable EncodeToString : list byte -> list byte.
Variable DecodeString : list byte -> option (list byte).
Variable TrimSpace : list byte -> list byte.

(** [encode], lines 401-408. *)
Definition encode (obj : SessionDescription) : Result (list byte) :=
  match Marshal obj with
  | None => Panic
  | Some b => Value (EncodeToString b)
  end.

(** [decode], lines 411-419: [obj] is the object the caller points to. *)
Definition decode (input : list byte) (obj : SessionDescription)
  : Result SessionDescription :=
  match DecodeString input with
  | None => Panic
  | Some b =>
      match Unmarshal b obj with
      | None => Panic
      | Some obj' => Value obj'
      end
  end.

Inductive OfferRead : Type :=
| OfferIs (offer : SessionDescription) (rest : Stdin)
| OfferPanics
| OfferWaits
| OfferSpins.

(** [decode(readUntilNewline(), &offer)], lines 344-345, with [zero] the
    empty [SessionDescription] the offer starts as. *)
Definition readOffer (fuel : nat) (stdin : Stdin) (zero : SessionDescription)
  : OfferRead :=
  match readUntilNewline TrimSpace fuel stdin with
  | Gives text rest =>
      match decode text zero with
      | Value offer => OfferIs offer rest
      | Panic => OfferPanics
      end
  | Panics => OfferPanics
  | Waits => OfferWaits
  | Spins => OfferSpins
  end.

(** What is asked of the libraries: base64 decodes what it encoded, and
    unmarshalling what was marshalled from [x] gives [x], whatever the
    target held. *)
Definition base64RoundTrip : Prop :=
  forall b, DecodeString (EncodeToString b) = Some b.

Definition jsonRoundTrip : Prop :=
  forall x b target, Marshal x = Some b -> Unmarshal b target = Some x.

Lemma decode_after_encode
  (obj target : SessionDescription) (text : list byte) :
  base64RoundTrip -> jsonRoundTrip ->
  encode obj = Value text ->
  decode text target = Value obj.
Proof.
  intros Hb Hj. unfold encode, decode.
  destruct (Marshal obj) as [b|] eqn:Em; [|discriminate].
  intros E. inversion E; subst text; clear E.
  rewrite Hb, (Hj obj b target Em). reflexivity.
Qed.

(** X14: [decode] undoes [encode]: whatever [encode] produced for a
    description, [decode] turns back into that description without a
    panic, whatever the target held before; and [encode] panics only when
    marshalling fails. *)
Theorem X14_decode_undoes_encode
  (obj target : SessionDescription) :
  base64RoundTrip -> jsonRoundTrip ->
  (forall text, encode obj = Value text -> decode text target = Value obj) /\
  (encode obj = Panic <-> Marshal obj = None).
Proof.
  intros Hb Hj. split.
  - intros text E. eapply decode_after_encode; eassumption.
  - unfold encode. destruct (Marshal obj); split; intros E;
      try discriminate; reflexivity.
Qed.

(** X15: pasting an encoded description works.  If standard input holds
    blank lines and then the text [encode] produced for [obj], ended by a
    newline that [TrimSpace] removes, [main] gets [obj] as its offer,
    whatever follows that line. *)
Theorem X15_pasted_offer_is_read_back
  (obj zero : SessionDescription) (text : list byte)
  (blanks : list (list byte)) (rest : list byte) (e : Ending) :
  base64RoundTrip -> jsonRoundTrip ->
  encode obj = Value text ->
  text <> [] -> ~ In newline text ->
  TrimSpace (text ++ [newline]) = text ->
  Forall (fun l => isLine l /\ blank TrimSpace l) blanks ->
  readOffer (S (length blanks))
            (mkStdin (concat blanks ++ (text ++ [newline]) ++ rest) e) zero
  = OfferIs obj (mkStdin rest e).
Proof.
  intros Hb Hj He Hne Hnl Ht Hbl. unfold readOffer.
  rewrite (first_text_line TrimSpace blanks (text ++ [newline]) rest e Hbl).
  - rewrite Ht. rewrite (decode_after_encode obj zero text Hb Hj He).
    reflexivity.
  - rewrite Ht. exact Hne.
  - left. exists text. auto.
Qed.

End SessionDescriptions.

(** * Concrete runs for the further properties *)

(** X1 at saturation: the queue holds exactly its hundred payloads. *)
Lemma X1_witness :
  exec saturate (start 4 goodPipe 0) = Some saturated /\
  length (buf (processedChan (h saturated))) = 100%nat /\
  cap (processedChan (h saturated)) = 100%nat /\
  (length (accepted saturated) <= length (drained saturated) + 100)%nat.
Proof.
  assert (E : exec saturate (start 4 goodPipe 0) = Some saturated)
    by (vm_compute; reflexivity).
  destruct (X1_queue_within_capacity 4%nat goodPipe 0 saturate saturated E)
    as (C & _ & A).
  split; [exact E|]. split; [vm_compute; reflexivity|].
  split; [exact C | exact A].
Defined.

(** The connection closes while [processRTPPackets] is inside
    [track.ReadRTP]. *)
Definition stoppedInRead : State :=
  run [OuterSelect; Stop] (start 4 goodPipe 0).

(** X2 there: the read still delivers [p1], which is dispatched, and the
    next [select] returns. *)
Lemma X2_witness :
  closed (done (h stoppedInRead)) = true /\
  dispatchBudget stoppedInRead = 1%nat /\
  exec [ReadPacket p1] stoppedInRead
    = Some (run [ReadPacket p1] stoppedInRead) /\
  (attempts (run [ReadPacket p1] stoppedInRead)
   <= attempts stoppedInRead + dispatchBudget stoppedInRead)%nat /\
  exists s1, step OuterSelect (run [ReadPacket p1] stoppedInRead) = Some s1 /\
             dispatcher s1 = Returned.
Proof.
  assert (D : closed (done (h stoppedInRead)) = true)
    by (vm_compute; reflexivity).
  assert (E : exec [ReadPacket p1] stoppedInRead
              = Some (run [ReadPacket p1] stoppedInRead))
    by (vm_compute; reflexivity).
  destruct (X2_at_most_one_dispatch_after_stop stoppedInRead [ReadPacket p1]
              (run [ReadPacket p1] stoppedInRead) D E) as (B & _ & R).
  split; [exact D|]. split; [vm_compute; reflexivity|].
  split; [exact E|]. split; [exact B|].
  destruct R as (s1 & Es & Hr & _); try (vm_compute; reflexivity).
  exists s1. split; [exact Es | exact Hr].
Defined.

(** Three payloads are in the queue when [track.ReadRTP] fails. *)
Definition endOfStream : list Label :=
  handoff p1 ++ handoff p2 ++ handoff p3 ++ [OuterSelect; ReadError].

Definition closedWithThree : State := run endOfStream (start 4 goodPipe 0).

(** The writer has drained the closed queue and returned. *)
Definition writerDone : State := run (repeat WriterChan 4) closedWithThree.

(** X3 there: time passes and the cleanup goroutine closes the pipe; the
    log stays as the writer left it. *)
Lemma X3_witness :
  writer writerDone = WriterReturned /\
  exec [Advance flushInterval; Stop; CloseStdin] writerDone
    = Some (run [Advance flushInterval; Stop; CloseStdin] writerDone) /\
  sinkLog (run [Advance flushInterval; Stop; CloseStdin] writerDone)
    = sinkLog writerDone /\
  tickerC (run [Advance flushInterval; Stop; CloseStdin] writerDone)
    = tickerC writerDone.
Proof.
  assert (Hw : writer writerDone = WriterReturned) by (vm_compute; reflexivity).
  assert (E : exec [Advance flushInterval; Stop; CloseStdin] writerDone
              = Some (run [Advance flushInterval; Stop; CloseStdin] writerDone))
    by (vm_compute; reflexivity).
  destruct (X3_no_write_after_writer_returned writerDone _ _ Hw E)
    as (_ & L & _ & _ & T).
  split; [exact Hw|]. split; [exact E|]. split; [exact L | exact T].
Defined.

(** The flaky pipe after the flush in which its second write failed. *)
Definition flakyTick : list Label :=
  handoff p1 ++ handoff p2 ++
  [WriterChan; WriterChan; Advance flushInterval; WriterTick].

Definition afterFlakyTick : State := run flakyTick (start 4 flakyPipe 0).

(** X4 there: [p2], whose write failed, is still in the batch. *)
Lemma X4_witness :
  exec flakyTick (start 4 flakyPipe 0) = Some afterFlakyTick /\
  allOk (sinkLog afterFlakyTick) = false /\
  In p2 (drained afterFlakyTick) /\
  (In p2 (delivered (sinkLog afterFlakyTick)) \/ In p2 (batch afterFlakyTick)) /\
  In p2 (accepted afterFlakyTick).
Proof.
  assert (E : exec flakyTick (start 4 flakyPipe 0) = Some afterFlakyTick)
    by (vm_compute; reflexivity).
  assert (D : In p2 (drained afterFlakyTick)) by (vm_compute; auto).
  destruct (X4_writer_neither_loses_nor_invents 4%nat flakyPipe 0 _ _ E)
    as (K & _ & A).
  split; [exact E|]. split; [vm_compute; reflexivity|].
  split; [exact D|]. split; [exact (K p2 D) | exact (A p2 D)].
Defined.

(** A sink on which every write fails. *)
Inductive Null : Type := null.

#[export] Instance Null_WriteCloser : WriteCloser Null :=
  {| Write := fun w _ => (w, false); Close := fun w => w |}.

Definition sixIn : list Label :=
  handoff p1 ++ handoff p2 ++ handoff p3 ++ handoff p1 ++ handoff p2 ++
  handoff p3.

Definition sixKept : State :=
  run (sixIn ++ repeat WriterChan 6) (start 4 null 0).

(** X5 on it: six payloads drained, none delivered, six in the batch. *)
Lemma X5_witness :
  (forall (w : Null) (p : Payload), snd (Write w p) = false) /\
  exec (sixIn ++ repeat WriterChan 6) (start 4 null 0) = Some sixKept /\
  delivered (sinkLog sixKept) = [] /\
  length (drained sixKept) = 6%nat /\
  length (batch sixKept) = length (drained sixKept).
Proof.
  assert (Hd : forall (w : Null) (p : Payload), snd (Write w p) = false)
    by (intros w p; reflexivity).
  assert (E : exec (sixIn ++ repeat WriterChan 6) (start 4 null 0)
              = Some sixKept) by (vm_compute; reflexivity).
  destruct (X5_dead_sink_batch_grows 4%nat null 0 _ _ Hd E) as (D & _ & L).
  split; [exact Hd|]. split; [exact E|]. split; [exact D|].
  split; [vm_compute; reflexivity | exact L].
Defined.

(** X6 after a report: one payload accepted, and the count printed is 1. *)
Lemma X6_witness :
  exec reportRun (start 4 goodPipe 0)
    = Some (run reportRun (start 4 goodPipe 0)) /\
  stdout (run reportRun (start 4 goodPipe 0)) = [ProcessedPerSec 1] /\
  0 <= 1 <= Z.of_nat (length (accepted (run reportRun (start 4 goodPipe 0)))).
Proof.
  assert (E : exec reportRun (start 4 goodPipe 0)
              = Some (run reportRun (start 4 goodPipe 0)))
    by (vm_compute; reflexivity).
  destruct (X6_counter_never_overstates 4%nat goodPipe 0 _ _ E) as (_ & P).
  split; [exact E|]. split; [vm_compute; reflexivity|].
  apply P. vm_compute. auto.
Defined.

(** A pool of one: [p1] is handed off, [p2] is dispatched, [p3] finds the
    pool full and is dropped, then [p2] is handed off. *)
Definition soloRun : list Label :=
  handoff p1 ++ arrive p2 ++ arrive p3 ++ repeat (Worker 0%nat) 5.

Definition afterSolo : State := run soloRun (start 1 goodPipe 0).

Lemma X7_witness :
  exec soloRun (start 1 goodPipe 0) = Some afterSolo /\
  inFlight afterSolo = 0%nat /\
  attempts afterSolo = 3%nat /\
  drops afterSolo = 1%nat /\
  reported afterSolo + packetCounter afterSolo = 2 /\
  dropAccounting (fun s => reported s + packetCounter s) afterSolo.
Proof.
  assert (E : exec soloRun (start 1 goodPipe 0) = Some afterSolo)
    by (vm_compute; reflexivity).
  destruct (X7_single_worker_counts_exactly goodPipe 0 soloRun afterSolo E)
    as (C & A); try (vm_compute; reflexivity).
  split; [exact E|]. do 3 (split; [vm_compute; reflexivity|]).
  split.
  - rewrite C. vm_compute; reflexivity.
  - apply A. vm_compute; reflexivity.
Defined.

Lemma X8_witness :
  exec soloRun (start 1 goodPipe 0) = Some afterSolo /\
  arrivals soloRun = [p1; p2; p3] /\
  accepted afterSolo = [p1; p2] /\
  Subseq (accepted afterSolo) (arrivals soloRun) /\
  Subseq (delivered (sinkLog afterSolo)) (arrivals soloRun).
Proof.
  assert (E : exec soloRun (start 1 goodPipe 0) = Some afterSolo)
    by (vm_compute; reflexivity).
  destruct (X8_single_worker_keeps_arrival_order goodPipe 0 soloRun afterSolo E)
    as (A & D).
  split; [exact E|]. do 2 (split; [vm_compute; reflexivity|]).
  split; [exact A|]. apply D. vm_compute; reflexivity.
Defined.

(** X9 at end of stream: the read error is printed, the loop has returned
    and the queue is closed, with [done] still open. *)
Lemma X9_witness :
  exec endOfStream (start 4 goodPipe 0) = Some closedWithThree /\
  In ErrorReadingRTP (stdout closedWithThree) /\
  closed (done (h closedWithThree)) = false /\
  dispatcher closedWithThree = Returned /\
  closed (processedChan (h closedWithThree)) = true.
Proof.
  assert (E : exec endOfStream (start 4 goodPipe 0) = Some closedWithThree)
    by (vm_compute; reflexivity).
  assert (P : In ErrorReadingRTP (stdout closedWithThree))
    by (vm_compute; auto).
  destruct (X9_loop_ends_on_stop_or_read_error 4%nat goodPipe 0 _ _ E)
    as (_ & R).
  destruct (R P) as (Hr & Hc).
  split; [exact E|]. split; [exact P|]. split; [vm_compute; reflexivity|].
  split; [exact Hr | exact Hc].
Defined.

(** X10: two packets, then the track fails; a third is never read. *)
Lemma X10_witness :
  let r := saveToDisk goodPipe [Packet p1; Packet p2; ReadFailure; Packet p3] in
  allOk (diskLog r) = true /\
  delivered (diskLog r) = [p1; p2] /\
  exit r = ReturnedOnReadError /\
  diskOut r = [DiskErrorReadingRTP].
Proof.
  cbv zeta.
  assert (K : allOk (diskLog (saveToDisk goodPipe
                [Packet p1; Packet p2; ReadFailure; Packet p3])) = true)
    by (vm_compute; reflexivity).
  destruct (X10_saveToDisk_writes_in_read_order goodPipe
              [Packet p1; Packet p2; ReadFailure; Packet p3] K)
    as (D & F & _).
  destruct F as (X & O); [vm_compute; reflexivity|].
  split; [exact K|]. split; [exact D|]. split; [exact X | exact O].
Defined.

(** X11: the second write fails; [p3] is neither read nor written. *)
Lemma X11_witness :
  let r := saveToDisk flakyPipe [Packet p1; Packet p2; Packet p3] in
  allOk (diskLog r) = false /\
  exit r = ReturnedOnWriteError /\
  diskOut r = [ErrorWritingPayload] /\
  diskLog r = [(p1, true); (p2, false)].
Proof.
  cbv zeta.
  assert (K : allOk (diskLog (saveToDisk flakyPipe
                [Packet p1; Packet p2; Packet p3])) = false)
    by (vm_compute; reflexivity).
  destruct (X11_saveToDisk_stops_at_first_write_error flakyPipe
              [Packet p1; Packet p2; Packet p3] K) as (X & O & _).
  split; [exact K|]. split; [exact X|]. split; [exact O|].
  vm_compute; reflexivity.
Defined.

(** [strings.TrimSpace] on ASCII text: tabs, line feeds, vertical tabs,
    form feeds, carriage returns and spaces are cut from both ends. *)
Definition isAsciiSpace (b : byte) : bool :=
  match b with
  | x09 | x0a | x0b | x0c | x0d | x20 => true
  | _ => false
  end.

Fixpoint trimLeft (l : list byte) : list byte :=
  match l with
  | [] => []
  | b :: rest => if isAsciiSpace b then trimLeft rest else l
  end.

Definition asciiTrimSpace (l : list byte) : list byte :=
  rev (trimLeft (rev (trimLeft l))).

(** A line of two spaces, and the text "v=0" between spaces. *)
Definition blankLine : list byte := [x20; x20; x0a].
Definition textLine : list byte := [x20; x76; x3d; x30; x20; x0a].
Definition v0 : list byte := [x76; x3d; x30].

Lemma blankLine_is_blank :
  Forall (fun l => isLine l /\ blank asciiTrimSpace l) [blankLine; blankLine].
Proof.
  assert (B : isLine blankLine /\ blank asciiTrimSpace blankLine).
  { split; [|reflexivity]. exists [x20; x20]. split; [reflexivity|].
    simpl. intros [E|[E|[]]]; discriminate. }
  repeat constructor; apply B.
Qed.

(** X12: two blank lines, the text line, and more input behind it. *)
Lemma X12_witness :
  readUntilNewline asciiTrimSpace 3
    (mkStdin (concat [blankLine; blankLine] ++ textLine ++ [x41]) OpenTerminal)
  = Gives v0 (mkStdin [x41] OpenTerminal).
Proof.
  apply (X12_readUntilNewline_returns_first_text_line asciiTrimSpace
           [blankLine; blankLine] textLine [x41] OpenTerminal).
  - exact blankLine_is_blank.
  - vm_compute. discriminate.
  - left. exists [x20; x76; x3d; x30; x20]. split; [reflexivity|].
    simpl. intros [E|[E|[E|[E|[E|[]]]]]]; discriminate.
Defined.

(** X13: two blank lines and two more spaces, then end of file, a read
    error, or an open terminal. *)
Lemma X13_witness :
  readUntilNewline asciiTrimSpace 1000
    (mkStdin (concat [blankLine; blankLine] ++ [x20; x20]) EndOfFile) = Spins /\
  readUntilNewline asciiTrimSpace 3
    (mkStdin (concat [blankLine; blankLine] ++ [x20; x20]) BrokenInput)
    = Panics /\
  readUntilNewline asciiTrimSpace 3
    (mkStdin (concat [blankLine; blankLine] ++ [x20; x20]) OpenTerminal)
    = Waits.
Proof.
  assert (Hn : ~ In newline [x20; x20])
    by (simpl; intros [E|[E|[]]]; discriminate).
  destruct (X13_readUntilNewline_without_text asciiTrimSpace
              [blankLine; blankLine] [x20; x20] blankLine_is_blank Hn)
    as (S & P & T).
  split; [apply S; reflexivity|]. split; [exact (P 0%nat) | exact (T 0%nat)].
Defined.

(** A codec that stands for the libraries: the description is its own
    bytes, and the encoding leaves them as they are. *)
Definition plainMarshal (x : list byte) : option (list byte) := Some x.
Definition plainUnmarshal (b target : list byte) : option (list byte) := Some b.
Definition plainEncode (b : list byte) : list byte := b.
Definition plainDecode (s : list byte) : option (list byte) := Some s.

Lemma X14_witness :
  base64RoundTrip plainEncode plainDecode /\
  jsonRoundTrip (list byte) plainMarshal plainUnmarshal /\
  encode (list byte) plainMarshal plainEncode v0 = Value v0 /\
  decode (list byte) plainUnmarshal plainDecode v0 [] = Value v0.
Proof.
  assert (Hb : base64RoundTrip plainEncode plainDecode)
    by (intros b; reflexivity).
  assert (Hj : jsonRoundTrip (list byte) plainMarshal plainUnmarshal).
  { intros x b target E. inversion E. reflexivity. }
  destruct (X14_decode_undoes_encode (list byte) plainMarshal plainUnmarshal
              plainEncode plainDecode v0 [] Hb Hj) as (R & _).
  split; [exact Hb|]. split; [exact Hj|]. split; [reflexivity|].
  apply R. reflexivity.
Defined.

Lemma X15_witness :
  readOffer (list byte) plainUnmarshal plainDecode asciiTrimSpace 3
    (mkStdin (concat [blankLine; blankLine] ++ (v0 ++ [newline]) ++ [x41])
             EndOfFile) []
  = OfferIs (list byte) v0 (mkStdin [x41] EndOfFile).
Proof.
  apply (X15_pasted_offer_is_read_back (list byte) plainMarshal plainUnmarshal
           plainEncode plainDecode asciiTrimSpace v0 [] v0
           [blankLine; blankLine] [x41] EndOfFile).
  - intros b; reflexivity.
  - intros x b target E. inversion E. reflexivity.
  - reflexivity.
  - discriminate.
  - simpl. intros [E|[E|[E|[]]]]; discriminate.
  - reflexivity.
  - exact blankLine_is_blank.
Defined.

(** Seven payloads reach the queue; the writer takes six of them. *)
Definition sevenIn : list Label :=
  handoff p1 ++ handoff p2 ++ handoff p3 ++ handoff p1 ++ handoff p2 ++
  handoff p3 ++ handoff p1.

Definition sixDrained : State :=
  run (sevenIn ++ repeat WriterChan 6) (start 4 goodPipe 0).

(** X16 after six drains: five payloads at the sink in drain order, the sixth
    in the batch, the seventh still in the queue. *)
Lemma X16_witness :
  exec (sevenIn ++ repeat WriterChan 6) (start 4 goodPipe 0) = Some sixDrained /\
  allOk (sinkLog sixDrained) = true /\
  delivered (sinkLog sixDrained) = [p1; p2; p3; p1; p2] /\
  batch sixDrained = [p3] /\
  delivered (sinkLog sixDrained) ++ batch sixDrained = drained sixDrained /\
  drained sixDrained ++ buf (processedChan (h sixDrained)) = accepted sixDrained.
Proof.
  assert (E : exec (sevenIn ++ repeat WriterChan 6) (start 4 goodPipe 0)
              = Some sixDrained) by (vm_compute; reflexivity).
  assert (K : allOk (sinkLog sixDrained) = true) by (vm_compute; reflexivity).
  destruct (X16_drain_order_while_writes_succeed 4%nat goodPipe 0 _ sixDrained E K)
    as (F & Q & _ & _).
  split; [exact E|]. split; [exact K|].
  split; [vm_compute; reflexivity|]. split; [vm_compute; reflexivity|].
  split; [exact F | exact Q].
Defined.

(** Five payloads reach the queue; the writer has taken four. *)
Definition fiveIn : list Label :=
  handoff p1 ++ handoff p2 ++ handoff p3 ++ handoff p1 ++ handoff p2.

Definition fourBatched : State :=
  run (fiveIn ++ repeat WriterChan 4) (start 4 goodPipe 0).

(** X17 with four payloads batched: taking the fifth flushes all five, with
    no tick waiting. *)
Lemma X17_witness :
  exec (fiveIn ++ repeat WriterChan 4) (start 4 goodPipe 0) = Some fourBatched /\
  batch fourBatched = [p1; p2; p3; p1] /\
  buf (tickerC fourBatched) = [] /\
  (exists s', step WriterChan fourBatched = Some s' /\
     sinkLog s' = sinkLog fourBatched ++ map ok [p1; p2; p3; p1; p2] /\
     batch s' = []) /\
  (length (batch fourBatched) < batchSize)%nat.
Proof.
  assert (E : exec (fiveIn ++ repeat WriterChan 4) (start 4 goodPipe 0)
              = Some fourBatched) by (vm_compute; reflexivity).
  destruct (X17_size_flush_while_writes_succeed 4%nat goodPipe 0 _ fourBatched E)
    as (F & B).
  split; [exact E|]. split; [vm_compute; reflexivity|].
  split; [vm_compute; reflexivity|]. split.
  - destruct (F p2 []) as (s' & Es & L & Bs & _);
      try (vm_compute; reflexivity).
    exists s'. split; [exact Es|]. split; [|exact Bs].
    rewrite L. vm_compute; reflexivity.
  - apply B. vm_compute; reflexivity.
Defined.

(** X18 at end of stream: the writer takes the three payloads, sees the
    queue closed and returns, with all three at the sink; the same with a
    tick taken in between. *)
Lemma X18_witness :
  exec endOfStream (start 4 goodPipe 0) = Some closedWithThree /\
  closed (processedChan (h closedWithThree)) = true /\
  buf (processedChan (h closedWithThree)) = [p1; p2; p3] /\
  (exists s', exec (repeat WriterChan 4) closedWithThree = Some s' /\
              writer s' = WriterReturned /\
              delivered (sinkLog s') = [p1; p2; p3]) /\
  (let s' := run [WriterChan; WriterChan; Advance flushInterval; WriterTick;
                  WriterChan; WriterChan] closedWithThree in
   writer s' = WriterReturned /\ delivered (sinkLog s') = [p1; p2; p3]).
Proof.
  assert (E : exec endOfStream (start 4 goodPipe 0) = Some closedWithThree)
    by (vm_compute; reflexivity).
  split; [exact E|]. split; [vm_compute; reflexivity|].
  split; [vm_compute; reflexivity|].
  destruct (X18_closure_drains_when_nothing_fails 4%nat goodPipe 0 _ _ E)
    as (_ & _ & D & A).
  split.
  - destruct D as (s' & Ex & Hr & Ha & Hd); try (vm_compute; reflexivity).
    exists s'. split; [exact Ex|]. split; [exact Hr|].
    rewrite Hd; [vm_compute; reflexivity|].
    vm_compute in Ex. inversion Ex. vm_compute; reflexivity.
  - cbv zeta.
    destruct (A [WriterChan; WriterChan; Advance flushInterval; WriterTick;
                 WriterChan; WriterChan]
                (run [WriterChan; WriterChan; Advance flushInterval;
                      WriterTick; WriterChan; WriterChan] closedWithThree))
      as (Hr & _ & Hd); try (vm_compute; reflexivity).
    split; [exact Hr|].
    rewrite Hd; vm_compute; reflexivity.
Defined.
